(** * qreader: a shallow embedding of the four-stage log pipeline

  The development follows [qreader.go] stage by stage:
  - [Reader]    block reads and line re-framing ([Reader.Start]),
  - [Parser]    chunk to record batch ([Parser.Parse]),
  - [Reducer]   record batch to partial tally ([Reducer.Reduce]),
  - [Combiner]  merge of the partial tallies and the report,
  - [Stage]     the goroutine pool of [Parser.Start] / [Reducer.Start]
                as an interleaving transition system,
  - [Pipeline]  [GetReader], [main] and the process outcome.

  Conventions.  Go's [int] and [int64] are 64-bit two's complement
  integers, represented in [Z] with the wrap-around written out
  ([wrap64]).  A Go [string] is a byte sequence and is represented by
  [string]; a [[]byte] is a [list byte].  A Go [map[string]int64] is a
  [gmap string Z]; wherever the program ranges over a map, the order
  in which the runtime enumerates the entries is an explicit argument
  (a list of entries). *)

From Stdlib Require Import ZArith List String Ascii Lia Permutation Sorted.
From Stdlib.Strings Require Import Byte.
From stdpp Require Import base option list gmap strings fin_maps sorting.

Open Scope Z_scope.

(** ** Go primitives used by the program *)

Module Go.

(** Outcome of a computation that may hit a run-time panic (index out
    of range).  A panic in any goroutine ends the process. *)
Inductive result (A : Type) : Type :=
| Ok (x : A)
| Panic.
Arguments Ok {A} x.
Arguments Panic {A}.

Definition int_min : Z := - 2 ^ 63.
Definition int_max : Z := 2 ^ 63 - 1.

(** Two's complement reduction into the 64-bit signed range. *)
Definition wrap64 (z : Z) : Z := (z + 2 ^ 63) mod 2 ^ 64 - 2 ^ 63.

(** [a + b] on [int] / [int64]. *)
Definition add64 (a b : Z) : Z := wrap64 (a + b).

Definition in_int64 (z : Z) : Prop := int_min <= z <= int_max.

(** [strings.Split(s, sep)] for a one-byte separator, the only form
    the program uses ("\n" and "\t").  The result is never empty:
    splitting the empty string gives one empty field. *)
Fixpoint Split (s : string) (sep : ascii) : list string :=
  match s with
  | EmptyString => [EmptyString]
  | String c s' =>
      if Ascii.eqb c sep then EmptyString :: Split s' sep
      else match Split s' sep with
           | [] => [String c EmptyString]
           | f :: fs => String c f :: fs
           end
  end.

(** [strings.HasPrefix(s, prefix)]. *)
Definition HasPrefix (s prefix : string) : bool := String.prefix prefix s.

(** [strings.HasSuffix(s, suffix)]. *)
Definition HasSuffix (s suffix : string) : bool :=
  let n := String.length s in
  let k := String.length suffix in
  (k <=? n)%nat && String.eqb (String.substring (n - k) k s) suffix.

Definition digit (c : ascii) : option Z :=
  let n := Z.of_N (N_of_ascii c) in
  if (48 <=? n) && (n <=? 57) then Some (n - 48) else None.

Fixpoint digits (s : string) (acc : Z) : option Z :=
  match s with
  | EmptyString => Some acc
  | String c s' =>
      match digit c with
      | Some d => digits s' (acc * 10 + d)
      | None => None
      end
  end.

(** The value returned by [strconv.Atoi] on a 64-bit platform; the
    program discards the error ([bytes1, _ := strconv.Atoi(..)]).
    A syntax error (empty string, lone sign, any non-digit) gives 0;
    a decimal numeral outside the [int] range gives the nearest
    bound. *)
Definition Atoi (s : string) : Z :=
  match s with
  | EmptyString => 0
  | String c s' =>
      let neg := Ascii.eqb c "-" in
      let body := if neg || Ascii.eqb c "+" then s' else s in
      match body with
      | EmptyString => 0
      | _ =>
          match digits body 0 with
          | None => 0
          | Some n => if neg then Z.max (- n) int_min else Z.min n int_max
          end
      end
  end.


(** The separators ['\t'] and ['\n']. *)
Definition tab : ascii := "009".
Definition lf : ascii := "010".

(** [[]byte(s)], to write byte slices as text. *)
Definition bytes_of (s : string) : list byte := list_byte_of_string s.

(** A line of text followed by ['\n']. *)
Definition ln (s : string) : string := s ++ String lf EmptyString.

(** Number of occurrences of the separator [sep] in [s]. *)
Fixpoint count_sep (s : string) (sep : ascii) : nat :=
  match s with
  | EmptyString => 0
  | String c s' => (if Ascii.eqb c sep then 1 else 0) + count_sep s' sep
  end.


End Go.

Import Go.

(** ** Reader: block reads and line re-framing *)

Module Reader.

(** What one call [reader.Read(buffer)] delivers: [ReadOk data] puts
    [data] at the front of the buffer and returns its length (with a
    nil error or [io.EOF]); [ReadErr] is any other error.  A source is
    the list of the results of the successive calls; once the list is
    used up, [Read] returns [(0, io.EOF)]. *)
Inductive ReadResult : Type :=
| ReadOk (data : list byte)
| ReadErr.

(** How [Start] ends: it closes [outq] after sending [chunks], or
    [Error.Fatalln] ends the process after [chunks] were sent. *)
Inductive outcome : Type :=
| Closed (chunks : list (list byte))
| Fatal (chunks : list (list byte)).

Definition newline : byte := x0a.

(** [make([]byte, bsize)] after [Read] stored [data] in it. *)
Definition fill (bsize : nat) (data : list byte) : list byte :=
  data ++ repeat x00 (bsize - length data).

(** The inner loop, from [end_it] downwards: [Some e] when
    [buffer[e] == '\n'] is found at an index [e > 0], [None] when
    [end_it] reaches 0 (index 0 itself is never inspected). *)
Fixpoint scan (buffer : list byte) (end_it : nat) : option nat :=
  match end_it with
  | O => None
  | S e =>
      if Byte.eqb (nth end_it buffer x00) newline then Some end_it
      else scan buffer e
  end.

(** The outer loop of [Start]. *)
Fixpoint loop (bsize : nat) (reads : list ReadResult)
    (leftovers : list byte) (outq : list (list byte)) : outcome :=
  match reads with
  | [] => Closed outq
  | ReadErr :: _ => Fatal outq
  | ReadOk data :: rest =>
      let buffer := fill bsize data in
      match length data with
      | O => Closed outq
      | S n =>
          match scan buffer n with
          | None => loop bsize rest (leftovers ++ buffer) outq
          | Some end_it =>
              loop bsize rest (skipn (end_it + 1) buffer)
                   (outq ++ [leftovers ++ firstn end_it buffer])
          end
      end
  end.

Definition Start (bsize : nat) (reads : list ReadResult) : outcome :=
  loop bsize reads [] [].

(** *** Vocabulary for the statements about [Start] *)

Definition chunks_of (o : outcome) : list (list byte) :=
  match o with
  | Closed chunks => chunks
  | Fatal chunks => chunks
  end.

(** A chunk with its line terminator put back. *)
Definition frame (chunk : list byte) : list byte := chunk ++ [newline].

(** The byte stream that [chunks], re-terminated, and the bytes still
    held in [leftovers] stand for. *)
Definition unframe (chunks : list (list byte)) (leftovers : list byte)
    : list byte :=
  concat (map frame chunks) ++ leftovers.

(** The buffers the loop processes: one per non-empty read, up to the
    first empty read, error or end of stream. *)
Fixpoint consumed (bsize : nat) (reads : list ReadResult) : list (list byte) :=
  match reads with
  | ReadOk (b :: data) :: rest => fill bsize (b :: data) :: consumed bsize rest
  | _ => []
  end.

(** The bytes of the source that precede its first error. *)
Fixpoint contents (reads : list ReadResult) : list byte :=
  match reads with
  | ReadOk data :: rest => data ++ contents rest
  | _ => []
  end.

(** The loop meets a read error while it is still reading. *)
Fixpoint hits_error (reads : list ReadResult) : bool :=
  match reads with
  | ReadErr :: _ => true
  | ReadOk (_ :: _) :: rest => hits_error rest
  | _ => false
  end.

(** A read that fills the whole buffer. *)
Definition full_read (bsize : nat) (r : ReadResult) : Prop :=
  match r with
  | ReadOk data => length data = bsize
  | ReadErr => False
  end.

(** A read that delivers at most one byte. *)
Definition tiny_read (r : ReadResult) : Prop :=
  match r with
  | ReadOk data => (length data <= 1)%nat
  | ReadErr => True
  end.

End Reader.

(** ** Parser: one chunk to one record batch *)

Module Parser.

Record conn : Type := Conn { orig : string; resp : string; bytes : Z }.

(** The zero value of [conn]. *)
Definition zero_conn : conn := Conn EmptyString EmptyString 0.

(** Whether the loop body reaches [continue] for this line; only
    meaningful for a non-empty line. *)
Definition is_comment (line : string) : bool :=
  match line with
  | String c _ => Ascii.eqb c "#"
  | EmptyString => false
  end.

(** The body of the loop for one non-comment line: field indexing
    panics when the line has too few tab-separated fields. *)
Definition parse_line (line : string) : result conn :=
  let data := Split line tab in
  match data !! 2%nat, data !! 4%nat, data !! 16%nat, data !! 18%nat with
  | Some orig, Some resp, Some f16, Some f18 =>
      Ok (Conn orig resp (add64 (Atoi f16) (Atoi f18)))
  | _, _, _, _ => Panic
  end.

(** [for _, line := range lines { ... }], threading [data_slice]. *)
Fixpoint parse_lines (lines : list string) (data_slice : list conn)
    : result (list conn) :=
  match lines with
  | [] => Ok data_slice
  | line :: rest =>
      match line with
      | EmptyString => Panic
      | String c _ =>
          if Ascii.eqb c "#" then parse_lines rest data_slice
          else match parse_line line with
               | Ok r => parse_lines rest (data_slice ++ [r])
               | Panic => Panic
               end
      end
  end.

(** [Parse]: the batch sent on [outq], or a panic.  [data_slice]
    starts as [make([]conn, len(lines))], that is [len(lines)] zero
    records, and the parsed records are appended after them. *)
Definition Parse (fileslice : list byte) : result (list conn) :=
  let lines := Split (string_of_list_byte fileslice) lf in
  parse_lines lines (repeat zero_conn (length lines)).

(** *** Vocabulary for the statements about [Parse] *)

(** The lines that are not skipped by [continue]. *)
Definition kept (lines : list string) : list string :=
  List.filter (fun line => negb (is_comment line)) lines.

(** A line on which the loop body panics: [line[0]] on an empty line,
    or [data[18]] on a non-comment line with fewer than 19 fields. *)
Definition fatal_line (line : string) : Prop :=
  line = EmptyString \/
  (is_comment line = false /\ (length (Split line tab) < 19)%nat).

(** A log line with the given addresses (fields 2 and 4) and byte
    counts (fields 16 and 18); the other fields are fillers. *)
Definition log_line (o r b1 b2 : string) : string :=
  String.concat (String tab EmptyString)
    ["ts"; "uid"; o; "op"; r; "rp"; "proto"; "service"; "duration";
     "f9"; "f10"; "f11"; "f12"; "f13"; "f14"; "f15"; b1; "f17"; b2]%string.

End Parser.

(** ** Reducer: one record batch to one partial tally *)

Module Reducer.
Import Parser.

(** The filter of [Reduce], a literal in the source. *)
Definition local_prefix : string := "128.252.".

Definition matches (addr : string) : bool := HasPrefix addr local_prefix.

(** [tt[k] += v] on a [map[string]int64]: a missing key reads as 0. *)
Definition bump (tt : gmap string Z) (k : string) (v : Z) : gmap string Z :=
  <[k := add64 (default 0 (tt !! k)) v]> tt.

(** The loop body of [Reduce] for one record. *)
Definition step (tt : gmap string Z) (c : conn) : gmap string Z :=
  let tt1 := if matches (orig c) then bump tt (orig c) (bytes c) else tt in
  if matches (resp c) then bump tt1 (resp c) (bytes c) else tt1.

(** [Reduce]: the partial tally sent on [outq]. *)
Definition Reduce (data_slice : list conn) : gmap string Z :=
  foldl step ∅ data_slice.

(** *** Vocabulary for the statements about [Reduce] *)

(** Record [c] names address [k] as its origin or as its responder. *)
Definition names (k : string) (c : conn) : Prop := orig c = k \/ resp c = k.

(** What record [c] adds under key [k]: its byte count, once for each
    of its two addresses that is [k]. *)
Definition credit (k : string) (c : conn) : Z :=
  (if decide (orig c = k) then bytes c else 0)
  + (if decide (resp c = k) then bytes c else 0).

Definition credit_sum (k : string) (data : list conn) : Z :=
  foldr (fun c s => credit k c + s) 0 data.

(** The record has an address that passes the filter. *)
Definition relevant (c : conn) : bool := matches (orig c) || matches (resp c).

End Reducer.

(** ** Combiner: merge and report *)

Module Combiner.
Import Reducer.

(** [for ip, bytecount := range subresult { final[ip] += bytecount }],
    with [subresult] given as the entries in the order the runtime
    enumerates them. *)
Definition merge (final : gmap string Z) (subresult : list (string * Z))
    : gmap string Z :=
  foldl (λ f e, bump f e.1 e.2) final subresult.

(** The loop of [Start] over the partial tallies in arrival order;
    the result is the map handed to [Report]. *)
Definition Start (inq : list (list (string * Z))) : gmap string Z :=
  foldl merge ∅ inq.

(** The integers [Start] sends to [outq] (one [len(subresult)] per
    partial tally). *)
Definition progress (inq : list (list (string * Z))) : list nat :=
  map (@length _) inq.

(** One printed line: [ip] and the two operands of the percentage
    [float64(value) / float64(total) * 100]. *)
Record line : Type := Line { ip : string; value : Z; total : Z }.

(** State of the first loop of [Report]. *)
Record acc : Type :=
  Acc { keys : list Z; swapped : gmap Z (list string); tbytes : Z }.

(** Body of the first loop for the entry [(k, v)].  When [swapped[v]]
    exists, [list = append(list, k)] only rebinds the local [list]:
    the map keeps the one-element slice stored by the first entry
    with that value. *)
Definition collect (a : acc) (e : string * Z) : acc :=
  let (k, v) := e in
  let swapped' :=
    match swapped a !! v with
    | Some _ => swapped a
    | None => <[v := [k]]> (swapped a)
    end in
  Acc (keys a ++ [v]) swapped' (add64 (tbytes a) v).

(** [keys := make([]int64, len(tt))] is [len(tt)] zeros. *)
Definition collect_all (tt : list (string * Z)) : acc :=
  foldl collect (Acc (repeat 0 (length tt)) ∅ 0) tt.

(** [sort.Sort(sort.Reverse(sortable_keys))]: the slice in descending
    order (the sort is in place and [keys] shares the array). *)
Fixpoint insert_desc (x : Z) (l : list Z) : list Z :=
  match l with
  | [] => [x]
  | y :: l' => if y <=? x then x :: l else y :: insert_desc x l'
  end.

Definition sort_desc (l : list Z) : list Z := foldr insert_desc [] l.

(** Inner printing loop over [ips]; returns [keepgoing], the new
    [num_printed] and the lines printed so far. *)
Fixpoint print_ips (ips : list string) (k tb : Z) (num_printed : nat)
    (out : list line) : bool * nat * list line :=
  match ips with
  | [] => (true, num_printed, out)
  | i :: rest =>
      if (num_printed <? 10)%nat
      then print_ips rest k tb (S num_printed) (out ++ [Line i k tb])
      else (false, num_printed, out)
  end.

(** Outer printing loop over the sorted [keys]. *)
Fixpoint print_keys (ks : list Z) (sw : gmap Z (list string)) (tb : Z)
    (num_printed : nat) (out : list line) : list line :=
  match ks with
  | [] => out
  | k :: rest =>
      match print_ips (default [] (sw !! k)) k tb num_printed out with
      | (true, n, out') => print_keys rest sw tb n out'
      | (false, _, out') => out'
      end
  end.

(** [Report]: the lines written to standard output, for the map whose
    entries the runtime enumerates as [tt]. *)
Definition Report (tt : list (string * Z)) : list line :=
  let a := collect_all tt in
  print_keys (sort_desc (keys a)) (swapped a) (tbytes a) 0 [].

(** *** Vocabulary for the statements about [Start] and [Report] *)

(** [it] is an order in which the runtime may enumerate the map [m]. *)
Definition enumerates (it : list (string * Z)) (m : gmap string Z) : Prop :=
  it ≡ₚ map_to_list m.

(** Exact sum of the values stored under [k] in a list of entries. *)
Definition deposits_for (k : string) (l : list (string * Z)) : Z :=
  foldr (fun e s => if decide (e.1 = k) then e.2 + s else s) 0 l.

(** Exact sum of the values of [k] over the tallies that contain it. *)
Definition tally_sum (k : string) (tallies : list (gmap string Z)) : Z :=
  foldr (fun m s => default 0 (m !! k) + s) 0 tallies.

Definition has_key (k : string) (m : gmap string Z) : Prop := is_Some (m !! k).

(** Every address stored in [swapped] satisfies [Q]. *)
Definition swapped_in (Q : string -> Prop) (sw : gmap Z (list string)) : Prop :=
  forall v ips, sw !! v = Some ips -> Forall Q ips.

(** The first key enumerated with the total [v]: the only key that
    [swapped[v]] ever holds. *)
Fixpoint owner (tt : list (string * Z)) (v : Z) : option string :=
  match tt with
  | [] => None
  | (k, v') :: rest => if v' =? v then Some k else owner rest v
  end.

(** [tbytes] after the first loop of [Report]. *)
Definition grand_total (tt : list (string * Z)) : Z := foldl add64 0 tt.*2.

(** [keys] after the sort: [len(tt)] zeros and the totals, descending. *)
Definition ranked (tt : list (string * Z)) : list Z :=
  sort_desc (repeat 0 (length tt) ++ tt.*2).

(** The line printed for the entry [v] of [keys], if any. *)
Definition line_for (tt : list (string * Z)) (v : Z) : option line :=
  (fun k => Line k v (grand_total tt)) <$> owner tt v.

(** *** The sort interface [int64arr] *)

Definition Len (a : list Z) : nat := length a.

(** [a[i] < a[j]]. *)
Definition Less (a : list Z) (i j : nat) : bool := nth i a 0 <? nth j a 0.

(** [a[i], a[j] = a[j], a[i]]. *)
Definition Swap (a : list Z) (i j : nat) : list Z :=
  <[j := nth i a 0]> (<[i := nth j a 0]> a).

(** [Less] of [sort.Reverse(a)]. *)
Definition reverse_Less (a : list Z) (i j : nat) : bool := Less a j i.

(** What [sort.Sort] establishes for the order [less]: no element is
    less than an element before it. *)
Definition sorted_by (less : list Z -> nat -> nat -> bool) (a : list Z) : Prop :=
  forall i j, (i < j < Len a)%nat -> less a j i = false.

End Combiner.

(** ** Stage: the goroutine pool of [Parser.Start] and [Reducer.Start]

    Both [Start] methods are the same program up to the task they
    spawn, so the pool is modelled once, over the task [work], the
    capacity [pool] of the [limiter] channel and the capacity
    [chansize] of the output queue.  A state records where the [Start]
    goroutine is, the live task goroutines, and the contents of the
    channels; a step is one statement of one goroutine, and goroutines
    interleave freely. *)

Module Stage.
Section Pool.
Context {A B : Type}.
Variable work : A -> result B.
Variable pool : nat.
Variable chansize : nat.

(** A task goroutine ([go self.Parse(fileslice)]): it first computes
    and sends its result ([self.outq <- data_slice]), then gives its
    slot back ([<-self.limiter]), then ends. *)
Inductive task : Type :=
| Working (x : A)
| Releasing.

(** Program point of the [Start] goroutine: at the head of the
    [range] loop, at [self.limiter <- 1] with the received item, at the
    [go] statement, in the polling loop, or returned. *)
Inductive start_pc : Type :=
| Ranging
| Acquiring (x : A)
| Spawning (x : A)
| Polling
| Returned.

Record state : Type := State {
  inq : list A;        (* items the input queue still delivers before it is closed *)
  pc : start_pc;
  limiter : nat;       (* len(self.limiter) *)
  tasks : list task;   (* live task goroutines *)
  outq : list B;       (* items buffered in self.outq *)
  taken : list B;      (* items the next stage has received from self.outq *)
  closes : nat;        (* how many times close(self.outq) ran *)
  crashed : bool       (* a goroutine panicked: the process is gone *)
}.

Definition init (input : list A) : state :=
  State input Ranging 0 [] [] [] 0 false.

Inductive step : state -> state -> Prop :=
(* fileslice := <-self.inq *)
| step_receive x iq l ts oq tk c :
    step (State (x :: iq) Ranging l ts oq tk c false)
         (State iq (Acquiring x) l ts oq tk c false)
(* self.limiter <- 1, possible while the limiter is not full *)
| step_acquire x iq l ts oq tk c :
    (l < pool)%nat ->
    step (State iq (Acquiring x) l ts oq tk c false)
         (State iq (Spawning x) (S l) ts oq tk c false)
(* go self.Parse(fileslice) *)
| step_spawn x iq l ts oq tk c :
    step (State iq (Spawning x) l ts oq tk c false)
         (State iq Ranging l (ts ++ [Working x]) oq tk c false)
(* the range loop ends: the input queue is closed and empty *)
| step_drained l ts oq tk c :
    step (State [] Ranging l ts oq tk c false)
         (State [] Polling l ts oq tk c false)
(* self.outq <- result, possible while the queue is open and not full *)
| step_send iq p l ts1 x ts2 y oq tk :
    work x = Ok y ->
    (length oq < chansize)%nat ->
    step (State iq p l (ts1 ++ Working x :: ts2) oq tk 0 false)
         (State iq p l (ts1 ++ Releasing :: ts2) (oq ++ [y]) tk 0 false)
(* a send on a closed queue panics *)
| step_send_closed iq p l ts1 x ts2 y oq tk c :
    work x = Ok y ->
    step (State iq p l (ts1 ++ Working x :: ts2) oq tk (S c) false)
         (State iq p l (ts1 ++ Working x :: ts2) oq tk (S c) true)
(* the task itself panics *)
| step_panic iq p l ts1 x ts2 oq tk c :
    work x = Panic ->
    step (State iq p l (ts1 ++ Working x :: ts2) oq tk c false)
         (State iq p l (ts1 ++ Working x :: ts2) oq tk c true)
(* <-self.limiter, then the task goroutine ends *)
| step_release iq p l ts1 ts2 oq tk c :
    step (State iq p (S l) (ts1 ++ Releasing :: ts2) oq tk c false)
         (State iq p l (ts1 ++ ts2) oq tk c false)
(* len(self.limiter) == 0: close(self.outq); break *)
| step_close ts oq tk c :
    step (State [] Polling 0 ts oq tk c false)
         (State [] Returned 0 ts oq tk (S c) false)
(* len(self.limiter) != 0: time.Sleep *)
| step_sleep l ts oq tk c :
    step (State [] Polling (S l) ts oq tk c false)
         (State [] Polling (S l) ts oq tk c false)
(* the next stage receives from self.outq *)
| step_take iq p l ts y oq tk c :
    step (State iq p l ts (y :: oq) tk c false)
         (State iq p l ts oq (tk ++ [y]) c false).

Definition reachable (input : list A) (s : state) : Prop :=
  rtc step (init input) s.

(** Inputs whose task has not sent its result yet. *)
Definition unsent_task (t : task) : list A :=
  match t with
  | Working x => [x]
  | Releasing => []
  end.

Definition unsent_pc (p : start_pc) : list A :=
  match p with
  | Acquiring x | Spawning x => [x]
  | _ => []
  end.

(** The slot [Start] holds for a task it has not spawned yet. *)
Definition held_pc (p : start_pc) : nat :=
  match p with
  | Spawning _ => 1
  | _ => 0
  end.

Definition unsent (s : state) : list A :=
  flat_map unsent_task (tasks s) ++ unsent_pc (pc s) ++ inq s.

(** Slots of the limiter that are accounted for. *)
Definition held (s : state) : nat :=
  (length (tasks s) + held_pc (pc s))%nat.

(** *** Vocabulary for the statements about the pool *)

(** The task for [x] returns a result. *)
Definition succeeds (x : A) : Prop := exists y, work x = Ok y.

(** What holds of every state of a live process. *)
Record live_inv (input : list A) (s : state) : Prop := LiveInv {
  inv_limiter : limiter s = held s;
  inv_closes : closes s = match pc s with Returned => 1%nat | _ => 0%nat end;
  inv_returned : pc s = Returned -> tasks s = [] /\ inq s = [];
  inv_polling : pc s = Polling -> inq s = [];
  inv_items :
    (Ok <$> (taken s ++ outq s)) ++ (work <$> unsent s) ≡ₚ work <$> input
}.

Definition inv (input : list A) (s : state) : Prop :=
  if crashed s then closes s = 0%nat else live_inv input s.

(** A variant that every step other than a sleep or a crash lowers. *)
Definition task_weight (t : task) : nat :=
  match t with
  | Working _ => 3
  | Releasing => 1
  end.

Definition pc_weight (p : start_pc) : nat :=
  match p with
  | Ranging => 2
  | Acquiring _ => 7
  | Spawning _ => 6
  | Polling => 1
  | Returned => 0
  end.

Definition measure (s : state) : nat :=
  6 * length (inq s) + pc_weight (pc s)
  + list_sum (map task_weight (tasks s)) + length (outq s).

(** The close protocol at a state [s] of a run on [input]:
    - the queue has been closed at most once;
    - once it is closed, the process is alive, [Start] has returned,
      the input is used up, no task is left, the limiter is empty, and
      the items sent are the results of the inputs, each once;
    - a step that closes the queue is taken only when no task is left
      and the limiter is empty;
    - when no task panics, the process is alive and the run can be
      continued to a state in which the queue is closed;
    - every step from [s] is a sleep of the polling loop, a crash, or
      lowers [measure], so a run that does not sleep forever is
      finite. *)
Definition closes_correctly (input : list A) (s : state) : Prop :=
  (closes s <= 1)%nat
  /\ (closes s = 1%nat ->
        crashed s = false /\ pc s = Returned /\ inq s = [] /\ tasks s = []
        /\ limiter s = 0%nat
        /\ Ok <$> (taken s ++ outq s) ≡ₚ work <$> input)
  /\ (forall s', step s s' -> closes s' <> closes s ->
        closes s = 0%nat /\ closes s' = 1%nat
        /\ inq s = [] /\ tasks s = [] /\ limiter s = 0%nat)
  /\ (Forall succeeds input ->
        crashed s = false /\ exists s', rtc step s s' /\ closes s' = 1%nat)
  /\ (forall s', step s s' ->
        s' = s \/ crashed s' = true \/ (measure s' < measure s)%nat).

(** The limiter counts the live tasks and the slot [Start] holds, and
    neither the limiter nor the output queue exceeds its capacity. *)
Definition bounded (s : state) : Prop :=
  limiter s = (length (tasks s) + held_pc (pc s))%nat
  /\ (limiter s <= pool)%nat
  /\ (length (outq s) <= chansize)%nat.

End Pool.
End Stage.

(** ** Pipeline: [GetReader], [main] and the way the process ends *)

Module Pipeline.

Definition Unzipper : string := "gzcat".
Definition ParserPool : nat := 6.
Definition ReducerPool : nat := 2.
Definition chansize : nat := Z.to_nat 10000.

(** One run of an external command: what its standard output delivers
    to successive reads of the pipe, and the status it exits with.
    Only [c.Wait()] would report the status; the program never calls
    it. *)
Record process : Type := Process {
  stdout : list Reader.ReadResult;
  exit_status : Z
}.

(** The operating system as [GetReader] sees it. *)
Record world : Type := World {
  os_Open : string -> option (list Reader.ReadResult);
  StdoutPipe_ok : bool;
  exec_Command : string -> list string -> process
}.

Inductive source : Type :=
| Source (reads : list Reader.ReadResult)
| SourcePanic     (* panic(err) after c.StdoutPipe() *)
| SourceFatal.    (* Error.Fatalln(err) after os.Open *)

Definition GetReader (w : world) (filename : string) : source :=
  if HasSuffix filename ".gz" then
    if StdoutPipe_ok w
    then Source (stdout (exec_Command w Unzipper ["-c"%string; filename]))
    else SourcePanic
  else
    match os_Open w filename with
    | Some reads => Source reads
    | None => SourceFatal
    end.

(** How the process ends: it returns from [main] after [Report]
    printed [report], or it dies with a non-zero status ([os.Exit(1)]
    in [Fatalln]/[Fatalf], status 2 on a panic) and prints no report. *)
Inductive ending : Type :=
| Reported (report : list Combiner.line)
| Failed.

(** All chunks through [Parse]; one panic ends the process. *)
Fixpoint parse_all (chunks : list (list byte)) : result (list (list Parser.conn)) :=
  match chunks with
  | [] => Ok []
  | c :: rest =>
      match Parser.Parse c, parse_all rest with
      | Ok b, Ok bs => Ok (b :: bs)
      | _, _ => Panic
      end
  end.

(** [main] with the flags [-f filename -b bsize].  The stages are
    composed in queue order and maps are enumerated in the order of
    [map_to_list]; this is one of the schedules the runtime may
    choose. *)
Definition main (w : world) (filename : string) (bsize : Z) : ending :=
  if String.eqb filename EmptyString then Failed
  else if bsize <=? 0 then Failed
  else
    match GetReader w filename with
    | SourcePanic | SourceFatal => Failed
    | Source reads =>
        match Reader.Start (Z.to_nat bsize) reads with
        | Reader.Fatal _ => Failed
        | Reader.Closed chunks =>
            match parse_all chunks with
            | Panic => Failed
            | Ok batches =>
                let tallies := map (fun b => map_to_list (Reducer.Reduce b)) batches in
                Reported (Combiner.Report (map_to_list (Combiner.Start tallies)))
            end
        end
    end.

(** *** The two pools of [main] *)

Definition parser_work (fileslice : list byte) : result (list Parser.conn) :=
  Parser.Parse fileslice.

(** [Reduce] has no failing operation. *)
Definition reducer_work (data_slice : list Parser.conn) : result (gmap string Z) :=
  Ok (Reducer.Reduce data_slice).

(** *** A run in which the decompressor fails

    [gzcat] writes one log line and then exits with status 1 (the
    archive is damaged after its first block); in
    [unreadable_archive] it cannot read its input at all and writes
    nothing. *)

Definition one_line : list byte :=
  bytes_of (ln (Parser.log_line "128.252.7.9" "10.0.0.1" "100" "50")).

Definition damaged_archive : world :=
  World (fun _ => None) true (fun _ _ => Process [Reader.ReadOk one_line] 1).

Definition unreadable_archive : world :=
  World (fun _ => None) true (fun _ _ => Process [] 1).

(** *** The progress display of [main]

    The loop over [chan4]: [dones] are the integers received, and the
    result lists the values of [total_done] that are printed (the
    queue lengths printed beside them are not modelled). *)
Fixpoint monitor (dones : list Z) (sampler total_done : Z) : list Z :=
  match dones with
  | [] => []
  | my_done :: rest =>
      let total_done := add64 total_done my_done in
      (if Z.rem sampler 10000 =? 0 then [total_done] else [])
      ++ monitor rest (add64 sampler 1) total_done
  end.

(** The totals displayed while the Combiner merges [inq]. *)
Definition progress_lines (inq : list (list (string * Z))) : list Z :=
  monitor (Z.of_nat <$> Combiner.progress inq) 0 0.

End Pipeline.

(** * Properties *)

(** ** 64-bit arithmetic *)

Section Arithmetic.


Lemma wrap64_id z : in_int64 z -> wrap64 z = z.
Proof.
  unfold in_int64, wrap64, int_min, int_max. intros H.
  rewrite Z.mod_small; lia.
Qed.

Lemma wrap64_add_l a b : wrap64 (wrap64 a + b) = wrap64 (a + b).
Proof.
  unfold wrap64.
  replace ((a + 2 ^ 63) mod 2 ^ 64 - 2 ^ 63 + b + 2 ^ 63)
    with ((a + 2 ^ 63) mod 2 ^ 64 + b) by lia.
  rewrite Zplus_mod_idemp_l. do 2 f_equal. lia.
Qed.


Lemma Split_nonempty s sep : (0 < length (Split s sep))%nat.
Proof.
  induction s as [|c s IH]; cbn [Split]; [simpl; lia|].
  destruct (Ascii.eqb c sep); [simpl; lia|].
  destruct (Split s sep); simpl in *; lia.
Qed.

End Arithmetic.

(** ** Reader *)

Section ReaderFacts.
Import Reader.

Lemma scan_found buffer n e :
  scan buffer n = Some e -> (0 < e <= n)%nat /\ nth e buffer x00 = newline.
Proof.
  induction n as [|n IH]; [done|]. cbn [scan].
  destruct (Byte.eqb (nth (S n) buffer x00) newline) eqn:E.
  - intros [= <-]. split; [lia|]. by apply Byte.byte_dec_bl in E.
  - intros H. apply IH in H. split; [lia|tauto].
Qed.

Lemma scan_none buffer n j :
  scan buffer n = None -> (0 < j <= n)%nat -> nth j buffer x00 <> newline.
Proof.
  induction n as [|n IH]; [lia|]. cbn [scan].
  destruct (Byte.eqb (nth (S n) buffer x00) newline) eqn:E; [done|].
  intros H Hj. destruct (decide (j = S n)) as [->|].
  - intros Heq. apply Byte.byte_dec_lb in Heq. congruence.
  - apply IH; [done|lia].
Qed.

Lemma split_at_newline (buffer : list byte) e :
  (e < length buffer)%nat -> nth e buffer x00 = newline ->
  firstn e buffer ++ [newline] ++ skipn (e + 1) buffer = buffer.
Proof.
  intros He Hn. rewrite <- (firstn_skipn e buffer) at 3. f_equal.
  rewrite <- Hn. replace (e + 1)%nat with (S e) by lia.
  revert buffer He Hn.
  induction e as [|e IH]; intros [|b buffer] He Hn; simpl in *; try lia.
  - done.
  - apply IH; [lia|done].
Qed.

Lemma length_fill bsize data : (length data <= length (fill bsize data))%nat.
Proof. unfold fill. rewrite length_app. lia. Qed.

Lemma fill_full bsize data : length data = bsize -> fill bsize data = data.
Proof. intros <-. unfold fill. by rewrite Nat.sub_diag, app_nil_r. Qed.

(** The loop neither loses nor invents a byte of the buffers it
    processes: what was sent so far, re-terminated, followed by the
    leftovers, is the stream of buffers. *)
Lemma loop_frames bsize reads : forall lo out,
  exists lo', unframe (chunks_of (loop bsize reads lo out)) lo'
              = unframe out lo ++ concat (consumed bsize reads).
Proof.
  induction reads as [|[data|] reads IH]; intros lo out.
  - exists lo. cbn. by rewrite app_nil_r.
  - destruct data as [|b data].
    + exists lo. cbn. by rewrite app_nil_r.
    + cbn [loop length consumed concat].
      set (buffer := fill bsize (b :: data)).
      destruct (scan buffer (length data)) as [e|] eqn:Hs.
      * apply scan_found in Hs as [He Hn].
        destruct (IH (skipn (e + 1) buffer) (out ++ [lo ++ firstn e buffer]))
          as [lo' Hlo].
        exists lo'. rewrite Hlo, app_assoc. f_equal.
        unfold unframe, frame. rewrite map_app, concat_app. cbn [map concat].
        rewrite app_nil_r, <- !app_assoc. do 2 f_equal.
        apply split_at_newline; [|done].
        pose proof (length_fill bsize (b :: data)) as Hl.
        change (fill bsize (b :: data)) with buffer in Hl.
        cbn [length] in Hl. lia.
      * destruct (IH (lo ++ buffer) out) as [lo' Hlo].
        exists lo'. rewrite Hlo. unfold unframe. by rewrite <- !app_assoc.
  - exists lo. cbn. by rewrite app_nil_r.
Qed.

Lemma consumed_full bsize reads :
  (0 < bsize)%nat -> Forall (full_read bsize) reads ->
  concat (consumed bsize reads) = contents reads.
Proof.
  intros Hb. induction 1 as [|[data|] reads Hr _ IH]; [done| |done].
  cbn [full_read] in Hr. destruct data as [|b data]; [simpl in Hr; lia|].
  cbn [consumed concat contents]. by rewrite fill_full, IH.
Qed.

Lemma loop_full_closes bsize reads :
  Forall (full_read bsize) reads ->
  forall lo out, exists chunks, loop bsize reads lo out = Closed chunks.
Proof.
  induction 1 as [|[data|] reads Hr _ IH]; intros lo out;
    [by eexists| |done].
  cbn [loop]. destruct (length data); [by eexists|].
  destruct (scan _ _); apply IH.
Qed.

(** X2.  Reassembly when every read fills its block (a regular file whose
    size is a multiple of the block size): [Start] closes its queue,
    and the chunks, each followed by a line terminator, are a prefix of
    the file; the rest of the file is the final content of
    [leftovers], which is not sent. *)
Lemma Start_reassembles_full_reads bsize reads :
  (0 < bsize)%nat -> Forall (full_read bsize) reads ->
  exists chunks lo,
    Start bsize reads = Closed chunks /\ unframe chunks lo = contents reads.
Proof.
  intros Hb Hfull.
  destruct (loop_full_closes bsize reads Hfull [] []) as [chunks Hc].
  destruct (loop_frames bsize reads [] []) as [lo Hlo].
  exists chunks, lo. split; [done|].
  rewrite Hc in Hlo. cbn [chunks_of] in Hlo.
  rewrite Hlo. cbn. by apply consumed_full.
Qed.

(** C3.  A file that exactly fills one block of 4 bytes and has no line
    terminator: [Start] closes the queue without sending anything.  The
    same happens to the unterminated last line of a longer input: of
    "ab\ncd" only "ab" is sent. *)
Theorem Reader_drops_final_partial_line :
  Start 4 [ReadOk (bytes_of "abcd")] = Closed []
  /\ Start 8 [ReadOk (bytes_of (ln "ab" ++ "cd"))] = Closed [bytes_of "ab"].
Proof. split; reflexivity. Qed.

(** C4.  A pipe delivers "a\nb" (3 of 4 bytes) and then "c\n": the
    line "bc", split by the read boundary, is sent as the chunk
    "b", 0, "c"; the zero byte comes from the unused tail of the first
    buffer and occurs nowhere in the source.  And a file "abcd\n" read
    in blocks of 4: the line fills the first block, its terminator is
    the first byte of the second, index 0 is never inspected, and the
    line is not sent at all. *)
Theorem Reader_corrupts_line_across_reads :
  let reads := [ReadOk (bytes_of (ln "a" ++ "b")); ReadOk (bytes_of (ln "c"))] in
  Start 4 reads = Closed [bytes_of "a"; bytes_of "b" ++ [x00] ++ bytes_of "c"]
  /\ contents reads = bytes_of (ln "a" ++ ln "bc")
  /\ ~ In x00 (contents reads)
  /\ Start 4 [ReadOk (bytes_of "abcd"); ReadOk (bytes_of (ln EmptyString))]
     = Closed [].
Proof.
  cbv zeta. split; [reflexivity|]. split; [reflexivity|].
  split; [|reflexivity].
  vm_compute. intuition discriminate.
Qed.

End ReaderFacts.

(** ** Parser *)

Section ParserFacts.
Import Parser.

Lemma parse_line_panic line :
  parse_line line = Panic <-> (length (Split line tab) < 19)%nat.
Proof.
  unfold parse_line. set (data := Split line tab).
  destruct (data !! 18%nat) as [f18|] eqn:H18.
  - pose proof (lookup_lt_Some _ _ _ H18) as Hlen.
    destruct (lookup_lt_is_Some_2 data 2) as [f2 ->]; [lia|].
    destruct (lookup_lt_is_Some_2 data 4) as [f4 ->]; [lia|].
    destruct (lookup_lt_is_Some_2 data 16) as [f16 ->]; [lia|].
    split; [done|lia].
  - apply lookup_ge_None in H18.
    split; [lia|]. intros _.
    by destruct (data !! 2%nat), (data !! 4%nat), (data !! 16%nat).
Qed.

(** A comment line leaves the batch as it is. *)
Lemma parse_lines_comment line rest ds :
  is_comment line = true ->
  parse_lines (line :: rest) ds = parse_lines rest ds.
Proof.
  destruct line as [|c line]; [done|]. cbn [is_comment parse_lines].
  by intros ->.
Qed.

(** When the loop completes, it has appended one record per kept line,
    in order, to the slice it started from. *)
Lemma parse_lines_ok lines : forall ds r,
  parse_lines lines ds = Ok r ->
  exists rs,
    r = ds ++ rs /\
    Forall2 (fun line c => parse_line line = Ok c) (kept lines) rs.
Proof.
  induction lines as [|line lines IH]; intros ds r.
  - intros [= <-]. exists []. by rewrite app_nil_r.
  - cbn [parse_lines]. destruct line as [|c line]; [done|].
    unfold kept. cbn [List.filter is_comment].
    destruct (Ascii.eqb c "#") eqn:E; cbn [negb].
    + apply IH.
    + destruct (parse_line (String c line)) as [rec|] eqn:Hp; [|done].
      intros H. apply IH in H as (rs & -> & Hrs).
      exists (rec :: rs). split; [by rewrite <- app_assoc|]. by constructor.
Qed.

(** The loop panics exactly when some line is empty or is a non-comment
    line with fewer than 19 fields. *)
Lemma parse_lines_panic lines : forall ds,
  parse_lines lines ds = Panic <-> Exists fatal_line lines.
Proof.
  induction lines as [|line lines IH]; intros ds.
  - cbn. split; [done|]. by intros ?%Exists_nil.
  - rewrite Exists_cons. cbn [parse_lines]. unfold fatal_line at 1.
    destruct line as [|c line].
    { split; [by left; left | done]. }
    cbn [is_comment]. destruct (Ascii.eqb c "#") eqn:E.
    + rewrite IH. split; [by right|]. intros [[?|[? _]]|?]; done.
    + pose proof (parse_line_panic (String c line)) as Hp.
      destruct (parse_line (String c line)) as [rec|].
      * rewrite IH. split; [by right|]. intros [[?|[_ Hlt]]|?]; try done.
        by apply Hp in Hlt.
      * split; [|done]. intros _. left. right. split; [done|]. by apply Hp.
Qed.

(** The batch of a chunk that parses: as many zero records as the chunk
    has lines, then the records of the kept lines. *)
Lemma Parse_batch fileslice batch :
  Parse fileslice = Ok batch ->
  let lines := Split (string_of_list_byte fileslice) lf in
  exists rs,
    batch = repeat zero_conn (length lines) ++ rs /\
    Forall2 (fun line c => parse_line line = Ok c) (kept lines) rs.
Proof. apply parse_lines_ok. Qed.

Lemma Parse_length fileslice batch :
  Parse fileslice = Ok batch ->
  let lines := Split (string_of_list_byte fileslice) lf in
  length batch = (length lines + length (kept lines))%nat.
Proof.
  intros H lines. destruct (Parse_batch _ _ H) as (rs & -> & Hrs).
  rewrite length_app, repeat_length. fold lines. f_equal.
  symmetry. by eapply Forall2_length.
Qed.

Lemma Parse_panics fileslice :
  Parse fileslice = Panic <->
  Exists fatal_line (Split (string_of_list_byte fileslice) lf).
Proof. apply parse_lines_panic. Qed.

(** C2.  A chunk of one well-formed line, which is not skipped: the
    batch has two records, a zero record and the parsed one.  With a
    comment line in front the chunk has two lines, one of them kept,
    and the batch has three records. *)
Theorem Parse_prepends_zero_records :
  let line := log_line "128.252.7.9" "10.0.0.1" "100" "50" in
  Parse (bytes_of line)
    = Ok [zero_conn; Conn "128.252.7.9" "10.0.0.1" 150]
  /\ kept (Split line lf) = [line]
  /\ Parse (bytes_of (ln "#fields" ++ line))
     = Ok [zero_conn; zero_conn; Conn "128.252.7.9" "10.0.0.1" 150].
Proof. cbv zeta. split; [|split]; reflexivity. Qed.

(** C5.  A comment line is skipped and a non-numeric byte field counts
    as zero, but a chunk with a line of three fields, or with an empty
    line between two comment lines, makes [Parse] panic: no batch is
    sent and the process ends. *)
Theorem Parse_panics_on_malformed_line :
  Parse (bytes_of (ln "#fields" ++ log_line "128.252.7.9" "10.0.0.1" "-" "50"))
    = Ok [zero_conn; zero_conn; Conn "128.252.7.9" "10.0.0.1" 50]
  /\ Parse (bytes_of (String.concat (String tab EmptyString) ["a"; "b"; "c"]%string))
     = Panic
  /\ Parse (bytes_of (ln "#a" ++ ln EmptyString ++ "#b")) = Panic.
Proof. split; [|split]; reflexivity. Qed.

End ParserFacts.

(** ** Reducer *)

Section ReducerFacts.
Import Parser Reducer.

(** One record: key [k] is touched exactly when [k] passes the filter
    and is the origin or the responder of the record, and it then grows
    by the record's byte count once per role. *)
Lemma step_lookup (tt : gmap string Z) c k :
  step tt c !! k =
    if decide (matches k = true /\ names k c)
    then Some (wrap64 (default 0 (tt !! k) + credit k c))
    else tt !! k.
Proof.
  unfold step, bump, names, credit, add64.
  destruct (decide (orig c = k)) as [Ho|Ho], (decide (resp c = k)) as [Hr|Hr];
    destruct (matches (orig c)) eqn:Mo, (matches (resp c)) eqn:Mr;
    try rewrite Ho in *; try rewrite Hr in *;
    repeat (rewrite lookup_insert_eq || rewrite lookup_insert_ne by done);
    case_decide as Hd; try (exfalso; intuition congruence); try done;
    cbn [default]; unfold id; rewrite ?wrap64_add_l; try (do 2 f_equal; lia).
Qed.

Lemma credit_sum_unnamed k data :
  ~ Exists (names k) data -> credit_sum k data = 0.
Proof.
  induction data as [|c data IH]; [done|].
  rewrite Exists_cons. intros Hn.
  cbn [credit_sum foldr]. fold (credit_sum k data).
  rewrite IH by tauto. unfold names in Hn. unfold credit.
  repeat case_decide; tauto || lia.
Qed.

Lemma foldl_step_lookup data : forall (tt : gmap string Z) k,
  foldl step tt data !! k =
    if decide (matches k = true /\ Exists (names k) data)
    then Some (wrap64 (default 0 (tt !! k) + credit_sum k data))
    else tt !! k.
Proof.
  induction data as [|c data IH]; intros tt k.
  - cbn [foldl]. case_decide as H; [|done].
    destruct H as [_ H]. by apply Exists_nil in H.
  - cbn [foldl credit_sum foldr]. fold (credit_sum k data).
    rewrite IH, step_lookup. clear IH.
    destruct (decide (matches k = true /\ names k c)) as [[Hm Hc]|Hc];
      destruct (decide (matches k = true /\ Exists (names k) data))
        as [[Hm' Hd]|Hd];
      destruct (decide (matches k = true /\ Exists (names k) (c :: data)))
        as [[Hm'' He]|He];
      try (exfalso; rewrite ?Exists_cons in *; tauto).
    + cbn [default]. unfold id. rewrite wrap64_add_l. do 2 f_equal. lia.
    + rewrite (credit_sum_unnamed k data) by tauto. do 2 f_equal. lia.
    + do 2 f_equal.
      assert (credit k c = 0) as ->; [|lia].
      unfold names in Hc. unfold credit. repeat case_decide; tauto || lia.
    + done.
Qed.

Lemma Reduce_lookup data k :
  Reduce data !! k =
    if decide (matches k = true /\ Exists (names k) data)
    then Some (wrap64 (credit_sum k data)) else None.
Proof.
  unfold Reduce. rewrite foldl_step_lookup, lookup_empty.
  case_decide; [|done]. do 2 f_equal.
Qed.

Lemma Reduce_keys_match data k :
  is_Some (Reduce data !! k) -> matches k = true.
Proof.
  rewrite Reduce_lookup. case_decide as H; [tauto|]. by intros [? ?].
Qed.

(** C7.  (1) Processing one record changes key [k] exactly when [k]
    has the prefix and is the record's origin or responder, and then
    adds the record's full byte count once for each of the two roles
    in which [k] occurs (64-bit addition).  (2) Hence a partial tally
    has a key exactly for the matching addresses of its batch, with the
    sum of these contributions, and no entry for any other address.
    (3) A record whose origin and responder are distinct and both
    match adds its byte count to both keys.  (4) Scenario B with
    a = 128.252.7.9 and b = 10.0.0.1: the records of 150 and 50 bytes
    give a the total 200 and b no entry, in the partial tally and in
    the merged tally. *)
Theorem Reduce_credits_matching_addresses :
  (forall (tt : gmap string Z) c k,
     step tt c !! k =
       if decide (matches k = true /\ names k c)
       then Some (add64 (default 0 (tt !! k)) (credit k c))
       else tt !! k)
  /\ (forall data k,
        Reduce data !! k =
          if decide (matches k = true /\ Exists (names k) data)
          then Some (wrap64 (credit_sum k data)) else None)
  /\ (forall (tt : gmap string Z) o r b,
        matches o = true -> matches r = true -> o <> r ->
        step tt (Conn o r b) !! o = Some (add64 (default 0 (tt !! o)) b)
        /\ step tt (Conn o r b) !! r = Some (add64 (default 0 (tt !! r)) b))
  /\ (let a := "128.252.7.9"%string in
      let b := "10.0.0.1"%string in
      let batch := [Conn a b 150; Conn a b 50] in
      matches a = true /\ matches b = false
      /\ Reduce batch !! a = Some 200 /\ Reduce batch !! b = None
      /\ Combiner.Start [map_to_list (Reduce [Conn a b 150]);
                         map_to_list (Reduce [Conn a b 50])]
         = {[ a := 200 ]}).
Proof.
  split; [|split; [|split]].
  - intros tt c k. apply step_lookup.
  - apply Reduce_lookup.
  - intros tt o r b Ho Hr Hne. rewrite !step_lookup. unfold names, credit.
    cbn [orig resp bytes]. split.
    + rewrite decide_True by tauto.
      rewrite (decide_True (P := o = o)) by done.
      rewrite (decide_False (P := r = o)) by done.
      unfold add64. do 2 f_equal. lia.
    + rewrite decide_True by tauto.
      rewrite (decide_True (P := r = r)) by done.
      rewrite (decide_False (P := o = r)) by done.
      unfold add64. do 2 f_equal.
  - cbv zeta. repeat split; reflexivity.
Qed.

(** The third part at a concrete record. *)
Lemma Reduce_credits_matching_addresses_witness :
  matches "128.252.7.9" = true /\ matches "128.252.0.1" = true
  /\ "128.252.7.9"%string <> "128.252.0.1"%string
  /\ step ∅ (Conn "128.252.7.9" "128.252.0.1" 64) !! "128.252.7.9"%string
     = Some (add64 (default 0 ((∅ : gmap string Z) !! "128.252.7.9"%string)) 64)
  /\ step ∅ (Conn "128.252.7.9" "128.252.0.1" 64) !! "128.252.0.1"%string
     = Some (add64 (default 0 ((∅ : gmap string Z) !! "128.252.0.1"%string)) 64).
Proof.
  split; [reflexivity|]. split; [reflexivity|]. split; [discriminate|].
  apply (proj1 (proj2 (proj2 Reduce_credits_matching_addresses))
           ∅ "128.252.7.9"%string "128.252.0.1"%string 64);
    [reflexivity | reflexivity | discriminate].
Defined.

End ReducerFacts.

(** ** Combiner: the merge *)

Section CombinerFacts.
Import Reducer Combiner.

Lemma deposits_for_absent k (l : list (string * Z)) :
  k ∉ l.*1 -> deposits_for k l = 0.
Proof.
  induction l as [|[k' v] l IH]; [done|].
  rewrite fmap_cons, not_elem_of_cons. intros [Hne Hk].
  cbn [deposits_for foldr fst snd]. fold (deposits_for k l).
  destruct (decide (k' = k)); [by subst | by apply IH].
Qed.

Lemma deposits_for_app k (l1 l2 : list (string * Z)) :
  deposits_for k (l1 ++ l2) = deposits_for k l1 + deposits_for k l2.
Proof.
  induction l1 as [|e l1 IH]; [done|].
  cbn [app deposits_for foldr]. fold (deposits_for k (l1 ++ l2)).
  fold (deposits_for k l1). rewrite IH. case_decide; lia.
Qed.

Lemma deposits_for_perm k (l1 l2 : list (string * Z)) :
  l1 ≡ₚ l2 -> deposits_for k l1 = deposits_for k l2.
Proof.
  induction 1 as [|e l1 l2 _ IH|e1 e2 l|l1 l2 l3 _ IH1 _ IH2].
  - done.
  - cbn [deposits_for foldr]. fold (deposits_for k l1) (deposits_for k l2).
    by rewrite IH.
  - cbn [deposits_for foldr]. repeat case_decide; lia.
  - congruence.
Qed.

Lemma deposits_for_map k (m : gmap string Z) :
  deposits_for k (map_to_list m) = default 0 (m !! k).
Proof.
  induction m as [|i x m Hi IH] using map_ind.
  - by rewrite map_to_list_empty.
  - rewrite (deposits_for_perm _ _ _ (map_to_list_insert m i x Hi)).
    cbn [deposits_for foldr fst snd]. fold (deposits_for k (map_to_list m)).
    rewrite IH. destruct (decide (i = k)) as [->|Hne].
    + rewrite lookup_insert_eq, Hi. simpl. lia.
    + by rewrite lookup_insert_ne.
Qed.

(** The inner loop, whatever the map it adds to: a key among the
    entries ends with its old value plus the entries' values. *)
Lemma merge_lookup (l : list (string * Z)) : forall (m : gmap string Z) k,
  merge m l !! k =
    if decide (k ∈ l.*1)
    then Some (wrap64 (default 0 (m !! k) + deposits_for k l))
    else m !! k.
Proof.
  induction l as [|[k' v] l IH]; intros m k.
  - reflexivity.
  - change (merge m ((k', v) :: l)) with (merge (bump m k' v) l).
    rewrite IH. clear IH. unfold bump. rewrite fmap_cons.
    cbn [deposits_for foldr fst snd]. fold (deposits_for k l).
    destruct (decide (k' = k)) as [->|Hne].
    + rewrite lookup_insert_eq. cbn [default]. unfold id.
      destruct (decide (k ∈ k :: l.*1)) as [_|[]]; [|apply list_elem_of_here].
      unfold add64.
      destruct (decide (k ∈ l.*1)) as [Hin|Hin].
      * f_equal. rewrite wrap64_add_l. f_equal. lia.
      * rewrite (deposits_for_absent _ _ Hin). do 2 f_equal. lia.
    + rewrite lookup_insert_ne by done.
      destruct (decide (k ∈ l.*1)) as [Hin|Hin];
        destruct (decide (k ∈ k' :: l.*1)) as [Hin'|Hin']; try done.
      * destruct Hin'. by apply list_elem_of_further.
      * apply elem_of_cons in Hin' as [?|?]; congruence.
Qed.

Lemma Start_concat (inq : list (list (string * Z))) (m : gmap string Z) :
  foldl merge m inq = merge m (concat inq).
Proof.
  revert m. induction inq as [|it inq IH]; intros m; [done|].
  cbn [foldl concat]. rewrite IH. unfold merge. by rewrite foldl_app.
Qed.

Lemma Start_lookup inq k :
  Start inq !! k =
    if decide (k ∈ (concat inq).*1)
    then Some (wrap64 (deposits_for k (concat inq))) else None.
Proof.
  unfold Start. rewrite Start_concat, merge_lookup.
  rewrite lookup_empty. case_decide; [|done]. do 2 f_equal.
Qed.

Lemma enumerates_deposits k it m :
  enumerates it m -> deposits_for k it = default 0 (m !! k).
Proof.
  intros H. rewrite (deposits_for_perm _ _ _ H). apply deposits_for_map.
Qed.

Lemma enumerates_keys k it m : enumerates it m -> k ∈ it.*1 <-> has_key k m.
Proof.
  intros H. unfold enumerates in H. rewrite H.
  rewrite list_elem_of_fmap. unfold has_key. split.
  - intros [[k' v] [-> Hin]]. apply elem_of_map_to_list in Hin. eauto.
  - intros [v Hv]. exists (k, v). split; [done|]. by apply elem_of_map_to_list.
Qed.

Lemma concat_deposits k inq tallies :
  Forall2 enumerates inq tallies ->
  deposits_for k (concat inq) = tally_sum k tallies.
Proof.
  induction 1 as [|it m inq tallies H _ IH]; [done|].
  cbn [concat tally_sum foldr]. fold (tally_sum k tallies).
  rewrite deposits_for_app, IH. f_equal. by apply enumerates_deposits.
Qed.

Lemma concat_keys k inq tallies :
  Forall2 enumerates inq tallies ->
  k ∈ (concat inq).*1 <-> Exists (has_key k) tallies.
Proof.
  induction 1 as [|it m inq tallies H _ IH].
  - simpl. rewrite Exists_nil. split; [by intros ?%elem_of_nil | done].
  - cbn [concat]. rewrite fmap_app, elem_of_app, Exists_cons, IH.
    by rewrite (enumerates_keys _ _ _ H).
Qed.

Lemma Start_sum tallies inq k :
  Forall2 enumerates inq tallies ->
  Start inq !! k =
    if decide (Exists (has_key k) tallies)
    then Some (wrap64 (tally_sum k tallies)) else None.
Proof.
  intros H. rewrite Start_lookup, (concat_deposits _ _ _ H).
  pose proof (concat_keys k _ _ H) as Hk.
  repeat case_decide; tauto.
Qed.

Lemma tally_sum_perm k t1 t2 : t1 ≡ₚ t2 -> tally_sum k t1 = tally_sum k t2.
Proof.
  induction 1 as [|m l1 l2 _ IH|m1 m2 l|l1 l2 l3 _ IH1 _ IH2].
  - done.
  - cbn [tally_sum foldr]. fold (tally_sum k l1) (tally_sum k l2). lia.
  - cbn [tally_sum foldr]. lia.
  - congruence.
Qed.

Lemma has_key_perm k t1 t2 :
  t1 ≡ₚ t2 -> Exists (has_key k) t1 <-> Exists (has_key k) t2.
Proof.
  intros H. rewrite !Exists_exists.
  split; intros (m & Hm & Hk); exists m; split; try done.
  - by rewrite <- H.
  - by rewrite H.
Qed.

(** C1, as amended.  Whatever the arrival order of the partial tallies
    and whatever the order in which each map is enumerated, the merged
    tally has a key exactly when some partial tally has it, and maps it
    to the sum of its values over the partial tallies, reduced to 64
    bits; the value is the exact sum whenever that sum is an [int64];
    and two runs over the same multiset of partial tallies end with the
    same map. *)
Theorem Combiner_merges_modulo_2_64 :
  forall (tallies : list (gmap string Z)) inq,
    Forall2 enumerates inq tallies ->
    (forall k,
       Start inq !! k =
         if decide (Exists (has_key k) tallies)
         then Some (wrap64 (tally_sum k tallies)) else None)
    /\ (forall k,
          Exists (has_key k) tallies -> in_int64 (tally_sum k tallies) ->
          Start inq !! k = Some (tally_sum k tallies))
    /\ (forall tallies' inq',
          tallies' ≡ₚ tallies -> Forall2 enumerates inq' tallies' ->
          Start inq' = Start inq).
Proof.
  intros tallies inq H. split; [|split].
  - intros k. by apply Start_sum.
  - intros k Hk Hr. rewrite (Start_sum _ _ _ H), decide_True by done.
    by rewrite wrap64_id.
  - intros tallies' inq' Hp H'. apply map_eq. intros k.
    rewrite (Start_sum _ _ _ H), (Start_sum _ _ _ H').
    rewrite (tally_sum_perm _ _ _ Hp).
    pose proof (has_key_perm k _ _ Hp). repeat case_decide; tauto.
Qed.

(** Two partial tallies that share a key, merged in both orders. *)
Lemma Combiner_merges_modulo_2_64_witness :
  let t1 : gmap string Z := {[ "128.252.7.9"%string := 150 ]} in
  let t2 : gmap string Z :=
    <[ "128.252.7.9"%string := 50 ]> {[ "128.252.0.1"%string := 7 ]} in
  Forall2 enumerates [map_to_list t1; map_to_list t2] [t1; t2]
  /\ Start [map_to_list t1; map_to_list t2] !! "128.252.7.9"%string
     = Some (tally_sum "128.252.7.9" [t1; t2])
  /\ tally_sum "128.252.7.9" [t1; t2] = 200
  /\ Start [map_to_list t2; map_to_list t1]
     = Start [map_to_list t1; map_to_list t2].
Proof.
  cbv zeta.
  set (t1 := ({[ "128.252.7.9"%string := 150 ]} : gmap string Z)).
  set (t2 := (<[ "128.252.7.9"%string := 50 ]>
                {[ "128.252.0.1"%string := 7 ]} : gmap string Z)).
  assert (H12 : Forall2 enumerates [map_to_list t1; map_to_list t2] [t1; t2]).
  { constructor; [apply Permutation_refl|].
    constructor; [apply Permutation_refl|constructor]. }
  assert (H21 : Forall2 enumerates [map_to_list t2; map_to_list t1] [t2; t1]).
  { constructor; [apply Permutation_refl|].
    constructor; [apply Permutation_refl|constructor]. }
  destruct (Combiner_merges_modulo_2_64 [t1; t2] _ H12) as (_ & Hexact & Hord).
  split; [exact H12|]. split; [|split].
  - apply Hexact.
    + apply Exists_cons_hd. by exists 150.
    + vm_compute. split; discriminate.
  - reflexivity.
  - apply (Hord [t2; t1] _ (perm_swap _ _ _) H21).
Defined.

(** C1, as stated, fails on overflow: two partial tallies with the
    values 2^63 - 1 and 1 under one key, each as [Reduce] produces it
    from a one-record batch, merge to -2^63, while the sum is 2^63. *)
Lemma Combiner_exact_sum_overflows :
  let k := "128.252.7.9"%string in
  let t1 := Reduce [Parser.Conn k "10.0.0.1" (2 ^ 63 - 1)] in
  let t2 := Reduce [Parser.Conn k "10.0.0.1" 1] in
  t1 = {[ k := 2 ^ 63 - 1 ]} /\ t2 = {[ k := 1 ]}
  /\ Start [map_to_list t1; map_to_list t2] !! k = Some (- 2 ^ 63)
  /\ tally_sum k [t1; t2] = 2 ^ 63
  /\ Start [map_to_list t1; map_to_list t2] !! k <> Some (tally_sum k [t1; t2]).
Proof.
  cbv zeta. repeat split; try reflexivity. vm_compute. discriminate.
Qed.

End CombinerFacts.

(** ** Combiner: the report *)

Section ReportFacts.
Import Reducer Combiner.

Section PrintedKeys.
Variable Q : string -> Prop.

Local Abbreviation swapped_in := (swapped_in Q).

Lemma collect_swapped_in a e :
  Q e.1 -> swapped_in (swapped a) -> swapped_in (swapped (collect a e)).
Proof.
  destruct e as [k v]. intros Hk Hsw. unfold collect. cbn [swapped].
  destruct (swapped a !! v) eqn:Hv; [done|].
  intros v' ips. rewrite lookup_insert. case_decide.
  - intros [= <-]. by repeat constructor.
  - apply Hsw.
Qed.

Lemma foldl_collect_swapped_in tt a :
  Forall (fun e => Q e.1) tt -> swapped_in (swapped a) ->
  swapped_in (swapped (foldl collect a tt)).
Proof.
  intros Htt. revert a. induction Htt as [|e tt He _ IH]; intros a Ha; [done|].
  cbn [foldl]. apply IH. by apply collect_swapped_in.
Qed.

Lemma print_ips_in ips k tb n out :
  Forall Q ips -> Forall (fun l => Q (ip l)) out ->
  Forall (fun l => Q (ip l)) (print_ips ips k tb n out).2.
Proof.
  intros Hips. revert n out.
  induction Hips as [|i ips Hi _ IH]; intros n out Hout; [done|].
  cbn [print_ips]. destruct (n <? 10)%nat; [|done].
  apply IH. apply Forall_app. split; [done|]. by repeat constructor.
Qed.

Lemma print_keys_in ks sw tb : forall n out,
  swapped_in sw -> Forall (fun l => Q (ip l)) out ->
  Forall (fun l => Q (ip l)) (print_keys ks sw tb n out).
Proof.
  induction ks as [|k ks IH]; intros n out Hsw Hout; [done|].
  cbn [print_keys].
  assert (Hips : Forall Q (default [] (sw !! k))).
  { destruct (sw !! k) eqn:Hk; [by eapply Hsw | constructor]. }
  pose proof (print_ips_in _ k tb n out Hips Hout) as Hp.
  destruct (print_ips (default [] (sw !! k)) k tb n out) as [[[] n'] out'];
    cbn [snd] in Hp.
  - by apply IH.
  - done.
Qed.

End PrintedKeys.

(** Every printed address is a key of the reported map. *)
Lemma Report_ip_is_key tt l : l ∈ Report tt -> ip l ∈ tt.*1.
Proof.
  revert l. apply Forall_forall. unfold Report, collect_all.
  apply (print_keys_in (fun i => i ∈ tt.*1)); [|constructor].
  apply foldl_collect_swapped_in;
    [|intros v ips; cbn [swapped]; by rewrite lookup_empty].
  apply Forall_forall. intros e He. apply list_elem_of_fmap. eauto.
Qed.

Lemma print_ips_count ips k tb n out :
  length out = n -> (n <= 10)%nat ->
  let r := print_ips ips k tb n out in
  (length r.2 = r.1.2 /\ r.1.2 <= 10)%nat.
Proof.
  revert n out. induction ips as [|i ips IH]; intros n out Hl Hn; [done|].
  cbn [print_ips]. destruct (n <? 10)%nat eqn:E; [|done].
  apply Nat.ltb_lt in E. apply IH; [|lia]. rewrite length_app. simpl. lia.
Qed.

Lemma print_keys_count ks sw tb : forall n out,
  length out = n -> (n <= 10)%nat ->
  (length (print_keys ks sw tb n out) <= 10)%nat.
Proof.
  induction ks as [|k ks IH]; intros n out Hl Hn; [simpl; lia|].
  cbn [print_keys].
  pose proof (print_ips_count (default [] (sw !! k)) k tb n out Hl Hn) as Hp.
  cbv zeta in Hp.
  destruct (print_ips (default [] (sw !! k)) k tb n out) as [[[] n'] out'];
    cbn [fst snd] in Hp.
  - apply (IH n'); lia.
  - lia.
Qed.

(** [sort_desc] is a sort: a rearrangement in descending order. *)
Lemma insert_desc_perm x l : insert_desc x l ≡ₚ x :: l.
Proof.
  induction l as [|y l IH]; [done|]. cbn [insert_desc].
  destruct (y <=? x); [done|]. rewrite IH. apply perm_swap.
Qed.

Lemma sort_desc_perm l : sort_desc l ≡ₚ l.
Proof.
  induction l as [|x l IH]; [done|].
  cbn [sort_desc foldr]. fold (sort_desc l).
  by rewrite insert_desc_perm, IH.
Qed.

Lemma insert_desc_sorted x l :
  Sorted Z.ge l -> Sorted Z.ge (insert_desc x l).
Proof.
  induction 1 as [|y l Hl IH Hy]; cbn [insert_desc].
  - by repeat constructor.
  - destruct (y <=? x) eqn:E.
    + apply Z.leb_le in E. repeat constructor; [done|done|lia].
    + apply Z.leb_gt in E. constructor; [done|].
      destruct Hy as [|z l' Hz]; cbn [insert_desc] in *.
      * constructor. lia.
      * destruct (z <=? x); constructor; lia.
Qed.

Lemma sort_desc_sorted l : Sorted Z.ge (sort_desc l).
Proof.
  induction l as [|x l IH]; [constructor|].
  cbn [sort_desc foldr]. by apply insert_desc_sorted.
Qed.

(** X27.  The report never has more than ten lines. *)
Lemma Report_at_most_10 tt : (length (Report tt) <= 10)%nat.
Proof. unfold Report. apply print_keys_count; [done | lia]. Qed.

(** C9.  Two keys with the same total (5 and 5): in whichever order
    the runtime enumerates the map, the key met first is printed twice
    and the other key is never printed.  A key whose total is 0, next
    to a key with total 10: the zero key is printed three times, so two
    distinct keys give four lines. *)
Theorem Report_repeats_key_on_tie :
  let a := "128.252.0.1"%string in
  let b := "128.252.0.2"%string in
  Report [(a, 5); (b, 5)] = [Line a 5 10; Line a 5 10]
  /\ Report [(b, 5); (a, 5)] = [Line b 5 10; Line b 5 10]
  /\ Report [(a, 0); (b, 10)]
     = [Line b 10 10; Line a 0 10; Line a 0 10; Line a 0 10]
  /\ Report [(b, 10); (a, 0)]
     = [Line b 10 10; Line a 0 10; Line a 0 10; Line a 0 10].
Proof. cbv zeta. repeat split; reflexivity. Qed.

(** C10.  Every key of every partial tally produced by [Reduce], every
    key of the tally merged from them, and every address printed by
    the report of that tally starts with the literal "128.252."; the
    enumeration orders are arbitrary. *)
Theorem tallied_keys_have_local_prefix :
  forall (batches : list (list Parser.conn)) inq it,
    Forall2 (fun e b => enumerates e (Reduce b)) inq batches ->
    enumerates it (Start inq) ->
    (forall b k, b ∈ batches -> has_key k (Reduce b) ->
       HasPrefix k "128.252." = true)
    /\ (forall k, has_key k (Start inq) -> HasPrefix k "128.252." = true)
    /\ (forall l, l ∈ Report it -> HasPrefix (ip l) "128.252." = true).
Proof.
  intros batches inq it Hinq Hit.
  assert (Hp : forall b k, has_key k (Reduce b) -> HasPrefix k "128.252." = true).
  { intros b k. apply Reduce_keys_match. }
  assert (Hs : forall k, has_key k (Start inq) -> HasPrefix k "128.252." = true).
  { intros k [v Hk]. rewrite Start_lookup in Hk.
    destruct (decide (k ∈ (concat inq).*1)) as [Hin|]; [|done]. clear Hk Hit.
    induction Hinq as [|e b inq batches He _ IH]; [by apply elem_of_nil in Hin|].
    cbn [concat] in Hin. rewrite fmap_app, elem_of_app in Hin.
    destruct Hin as [Hin|Hin]; [|by apply IH].
    apply (Hp b). by apply (enumerates_keys k e). }
  split; [|split].
  - intros b k _. apply Hp.
  - exact Hs.
  - intros l Hl. apply Hs. apply (enumerates_keys _ it); [done|].
    by apply Report_ip_is_key.
Qed.

(** One batch with a local origin and a remote responder, through
    [Reduce], the merge and the report. *)
Lemma tallied_keys_have_local_prefix_witness :
  let batch := [Parser.Conn "128.252.7.9" "10.0.0.1" 150] in
  let inq := [map_to_list (Reduce batch)] in
  let it := map_to_list (Start inq) in
  Forall2 (fun e b => enumerates e (Reduce b)) inq [batch]
  /\ enumerates it (Start inq)
  /\ Report it = [Line "128.252.7.9" 150 150]
  /\ (forall l, l ∈ Report it -> HasPrefix (ip l) "128.252." = true).
Proof.
  cbv zeta.
  set (batch := [Parser.Conn "128.252.7.9" "10.0.0.1" 150]).
  assert (H1 : Forall2 (fun e b => enumerates e (Reduce b))
                 [map_to_list (Reduce batch)] [batch]).
  { constructor; [apply Permutation_refl | constructor]. }
  assert (H2 : enumerates (map_to_list (Start [map_to_list (Reduce batch)]))
                 (Start [map_to_list (Reduce batch)])).
  { apply Permutation_refl. }
  split; [exact H1|]. split; [exact H2|]. split; [reflexivity|].
  apply (tallied_keys_have_local_prefix [batch] _ _ H1 H2).
Defined.

End ReportFacts.

(** ** Stage: the close protocol of the pools *)

Section StageFacts.
Context {A B : Type}.
Variable work : A -> result B.
Variable pool : nat.
Variable chansize : nat.

Import Stage.

Local Abbreviation state := (@Stage.state A B).
Local Abbreviation step := (Stage.step work pool chansize).
Local Abbreviation reachable := (Stage.reachable work pool chansize).
Local Abbreviation inv := (Stage.inv work).
Local Abbreviation live_inv := (Stage.live_inv work).
Local Abbreviation succeeds := (Stage.succeeds work).

Lemma inv_init input : inv input (init input).
Proof. unfold Stage.inv, init. cbn. split; cbn; try done. Qed.

Lemma unsent_middle (ts1 ts2 : list (@task A)) t :
  flat_map unsent_task (ts1 ++ t :: ts2)
  ≡ₚ unsent_task t ++ flat_map unsent_task (ts1 ++ ts2).
Proof.
  rewrite !flat_map_app. cbn [flat_map].
  rewrite !app_assoc. apply Permutation_app_tail, Permutation_app_comm.
Qed.

Ltac live_intro :=
  constructor; unfold held, unsent in *;
  cbn [limiter pc closes tasks inq outq taken unsent_pc held_pc length app] in *.

Lemma inv_step input s s' : inv input s -> step s s' -> inv input s'.
Proof.
  intros Hinv Hstep.
  destruct Hstep; unfold Stage.inv in *; cbn [crashed] in *;
    destruct Hinv as [Hl Hc Hr Hp Hi].
  all: try live_intro.
  all: try done.
  all: unfold held, unsent in *;
    cbn [limiter pc closes tasks inq outq taken unsent_pc held_pc length app] in *.
  - (* acquire *) rewrite Hl. lia.
  - (* spawn *) rewrite Hl, length_app. cbn. lia.
  - (* spawn *) rewrite <- Hi, flat_map_app. cbn. by rewrite <- !app_assoc.
  - (* send *) rewrite Hl, !length_app. done.
  - (* send *) intros ->. destruct (Hr eq_refl) as [Ht _]. by destruct ts1.
  - (* send *) rewrite <- Hi, !unsent_middle. cbn [unsent_task app].
    rewrite (app_assoc tk oq [y]), (fmap_app Ok (tk ++ oq) [y]), <- app_assoc.
    rewrite (fmap_cons work), H. done.
  - (* send on a closed queue *)
    destruct p; try discriminate. destruct (Hr eq_refl) as [Ht _].
    by destruct ts1.
  - (* panic *)
    destruct p; try done. destruct (Hr eq_refl) as [Ht _]. by destruct ts1.
  - (* release *) rewrite length_app in *. cbn in Hl. lia.
  - (* release *) intros ->. destruct (Hr eq_refl) as [Ht _]. by destruct ts1.
  - (* release *) rewrite <- Hi, !unsent_middle. done.
  - (* close *) lia.
  - (* close *) intros _. split; [|done]. destruct ts; [done|cbn in Hl; lia].
  - (* take *) rewrite <- Hi. cbn. by rewrite <- !app_assoc.
Qed.

Lemma inv_reachable input s : reachable input s -> inv input s.
Proof.
  unfold Stage.reachable. intros H.
  revert s H. apply (rtc_ind_r (R := step) (inv input)); [apply inv_init|].
  intros y z _ Hyz Hy. by eapply inv_step.
Qed.

(** *** Safety of the close *)

Lemma closed_state input s :
  reachable input s ->
  (closes s <= 1)%nat /\
  (closes s = 1%nat ->
     crashed s = false /\ pc s = Returned /\ inq s = [] /\ tasks s = [] /\
     limiter s = 0%nat /\ Ok <$> (taken s ++ outq s) ≡ₚ work <$> input).
Proof.
  intros H. apply inv_reachable in H. unfold Stage.inv in H.
  destruct (crashed s).
  - rewrite H. split; [lia|discriminate].
  - destruct H as [Hl Hc Hr Hp Hi]. split.
    + rewrite Hc. destruct (pc s); lia.
    + intros H1. destruct (pc s) eqn:Hpc; rewrite H1 in Hc; try discriminate.
      destruct (Hr eq_refl) as [Ht Hq].
      unfold held, unsent in *. rewrite Hpc, Ht, Hq in *. cbn in *.
      rewrite app_nil_r in Hi. done.
Qed.

Lemma closing_step input s s' :
  reachable input s -> step s s' -> closes s' <> closes s ->
  closes s = 0%nat /\ closes s' = 1%nat /\
  inq s = [] /\ tasks s = [] /\ limiter s = 0%nat.
Proof.
  intros Hs Hstep Hne. apply inv_reachable in Hs.
  destruct Hstep; cbn [closes] in *; try done.
  unfold Stage.inv in Hs. cbn [crashed] in Hs. destruct Hs as [Hl Hc Hr Hp Hi].
  unfold held in Hl. cbn in *. subst c.
  repeat split; try done. destruct ts; [done | cbn in Hl; lia].
Qed.

(** *** The stage can always finish *)

Lemma unsent_succeed input s :
  Forall succeeds input -> live_inv input s -> Forall succeeds (unsent s).
Proof.
  intros Hin [_ _ _ _ Hi]. apply Forall_forall. intros x Hx.
  assert (Hw : work x ∈ work <$> input).
  { rewrite <- Hi. apply elem_of_app. right. by apply list_elem_of_fmap_2. }
  apply list_elem_of_fmap in Hw as (x0 & Heq & Hx0).
  rewrite Forall_forall in Hin. destruct (Hin _ Hx0) as [y Hy].
  exists y. congruence.
Qed.

Ltac measure_lia :=
  unfold measure, list_sum;
  cbn [inq pc tasks outq length map app foldr pc_weight task_weight]; lia.

(** Every step is a sleep, a crash, or lowers the variant. *)
Lemma step_measure s s' :
  step s s' ->
  s' = s \/ crashed s' = true \/ (measure s' < measure s)%nat.
Proof.
  destruct 1; try (by left); try (by right; left); right; right.
  all: unfold measure, list_sum;
    cbn [inq pc tasks outq pc_weight];
    rewrite ?map_app, ?foldr_app, ?length_app; cbn [map foldr length task_weight].
  all: try lia.
  - induction ts as [|t ts IH]; cbn [map foldr]; lia.
  - induction ts1 as [|t ts1 IH]; cbn [map foldr app]; lia.
  - induction ts1 as [|t ts1 IH]; cbn [map foldr app]; lia.
Qed.

Lemma progress input s :
  (0 < pool)%nat -> (0 < chansize)%nat ->
  Forall succeeds input -> crashed s = false -> live_inv input s ->
  pc s <> Returned ->
  exists s', step s s' /\ crashed s' = false /\ (measure s' < measure s)%nat.
Proof.
  intros Hpool Hchan Hin Hcr Hlive Hpc.
  pose proof (unsent_succeed _ _ Hin Hlive) as Hok.
  destruct Hlive as [Hl Hc Hr Hp Hi].
  destruct s as [iq p l ts oq tk c cr].
  unfold held, unsent in *.
  cbn [limiter pc closes tasks inq outq taken crashed] in *. subst cr.
  destruct oq as [|y oq].
  2:{ eexists. split; [apply step_take|]. split; [done|]. measure_lia. }
  destruct ts as [|[x|] ts].
  - cbn [length unsent_pc held_pc app] in *.
    destruct p as [|x|x| |]; try done.
    + destruct iq as [|x iq].
      * eexists. split; [apply step_drained|]. split; [done|]. measure_lia.
      * eexists. split; [apply step_receive|]. split; [done|]. measure_lia.
    + eexists. split; [apply step_acquire; cbn in Hl; lia|].
      split; [done|]. measure_lia.
    + eexists. split; [apply step_spawn|]. split; [done|]. measure_lia.
    + destruct iq as [|x iq].
      * cbn in Hl. subst l.
        eexists. split; [apply step_close|]. split; [done|]. measure_lia.
      * by specialize (Hp eq_refl).
  - cbn [flat_map unsent_task app] in Hok.
    apply Forall_cons in Hok as [[y Hy] _].
    assert (c = 0%nat) as -> by (destruct p; done).
    eexists. split;
      [apply (step_send _ _ _ iq p l [] x ts y [] tk Hy); cbn; lia|].
    split; [done|]. measure_lia.
  - cbn [length] in Hl. destruct l as [|l]; [lia|].
    eexists. split; [apply (step_release _ _ _ iq p l [] ts [] tk c)|].
    split; [done|]. measure_lia.
Qed.

Lemma step_no_crash input s s' :
  Forall succeeds input -> inv input s -> crashed s = false ->
  step s s' -> crashed s' = false.
Proof.
  intros Hin Hinv Hcr Hstep. unfold Stage.inv in Hinv. rewrite Hcr in Hinv.
  pose proof (unsent_succeed _ _ Hin Hinv) as Hok.
  destruct Hinv as [Hl Hc Hr Hp Hi].
  destruct Hstep; try done; exfalso; unfold unsent in *;
    cbn [limiter pc closes tasks inq outq taken crashed] in *.
  - destruct p; try discriminate. destruct (Hr eq_refl) as [Ht _].
    by destruct ts1.
  - rewrite flat_map_app in Hok. cbn [flat_map unsent_task app] in Hok.
    rewrite !Forall_app, Forall_cons in Hok.
    destruct Hok as [[_ [[y Hy] _]] _]. congruence.
Qed.

Lemma never_crashes input s :
  Forall succeeds input -> reachable input s -> crashed s = false.
Proof.
  intros Hin. revert s. apply (rtc_ind_r (R := step)); [done|].
  intros y z Hy Hyz IH. eapply step_no_crash; eauto.
  by apply inv_reachable.
Qed.

Lemma can_finish input :
  (0 < pool)%nat -> (0 < chansize)%nat -> Forall succeeds input ->
  forall s, reachable input s ->
  exists s', rtc step s s' /\ closes s' = 1%nat.
Proof.
  intros Hpool Hchan Hin s.
  remember (measure s) as n eqn:Hn. revert s Hn.
  induction n as [n IH] using lt_wf_ind. intros s -> Hs.
  pose proof (inv_reachable _ _ Hs) as Hinv. unfold Stage.inv in Hinv.
  pose proof (never_crashes _ _ Hin Hs) as Hcr. rewrite Hcr in Hinv.
  assert (Hdec : pc s = Returned \/ pc s <> Returned)
    by (destruct (pc s); (by left) || (by right)).
  destruct Hdec as [Hpc|Hpc].
  - exists s. split; [done|]. destruct Hinv as [_ Hc _ _ _].
    by rewrite Hc, Hpc.
  - destruct (progress input s Hpool Hchan Hin Hcr Hinv Hpc)
      as (s1 & Hstep & _ & Hlt).
    destruct (IH _ Hlt s1 eq_refl) as (s' & Hs' & Hcl); [by eapply rtc_r|].
    exists s'. split; [by eapply rtc_l | done].
Qed.

(** The protocol holds in every reachable state of every pool. *)
Lemma pool_closes_correctly input s :
  (0 < pool)%nat -> (0 < chansize)%nat ->
  reachable input s -> closes_correctly work pool chansize input s.
Proof.
  intros Hpool Hchan Hs. destruct (closed_state _ _ Hs) as [H1 H2].
  split; [done|]. split; [done|]. split; [|split].
  - intros s'. by apply (closing_step input).
  - intros Hin. split; [by eapply never_crashes | by eapply can_finish].
  - intros s'. apply step_measure.
Qed.

(** A complete run on one input whose task succeeds. *)
Lemma run_one x y :
  work x = Ok y -> (0 < pool)%nat -> (0 < chansize)%nat ->
  reachable [x] (State [] Returned 0 [] [y] [] 1 false).
Proof.
  intros Hx Hpool Hchan. unfold Stage.reachable, init.
  eapply rtc_l; [apply step_receive|].
  eapply rtc_l; [by apply step_acquire|].
  eapply rtc_l; [apply step_spawn|].
  eapply rtc_l; [apply step_drained|].
  eapply rtc_l;
    [by apply (step_send _ _ _ [] Polling 1 [] x [] y [] [] Hx)|].
  eapply rtc_l; [apply (step_release _ _ _ [] Polling 0 [] [] [y] [] 0)|].
  eapply rtc_l; [apply step_close|].
  apply rtc_refl.
Qed.

End StageFacts.

Section PoolsOfMain.
Import Pipeline.

Lemma ParserPool_pos : (0 < ParserPool)%nat.
Proof. unfold ParserPool. lia. Qed.

Lemma ReducerPool_pos : (0 < ReducerPool)%nat.
Proof. unfold ReducerPool. lia. Qed.

Lemma chansize_pos : (0 < chansize)%nat.
Proof. unfold chansize. lia. Qed.

Lemma reducer_work_succeeds input : Forall (Stage.succeeds reducer_work) input.
Proof. apply Forall_forall. intros x _. by eexists. Qed.

(** C6.  In every state that the Parser stage (tasks [Parse], six
    slots) or the Reducer stage (tasks [Reduce], two slots) can reach,
    under any interleaving of [Start], its tasks and the next stage:
    the output queue has been closed at most once; the step that closes
    it is taken only with the input queue used up, no task left and the
    limiter empty, so every spawned task has sent its result and given
    back its slot; once the queue is closed, the items sent on it are
    exactly the results of the inputs; and if no task panics (always so
    for [Reduce]) the stage does not crash and can reach the close. *)
Theorem stages_close_after_all_tasks :
  (forall input s,
     Stage.reachable parser_work ParserPool chansize input s ->
     Stage.closes_correctly parser_work ParserPool chansize input s)
  /\ (forall input s,
        Stage.reachable reducer_work ReducerPool chansize input s ->
        Stage.closes_correctly reducer_work ReducerPool chansize input s
        /\ Forall (Stage.succeeds reducer_work) input).
Proof.
  split.
  - intros input s.
    apply pool_closes_correctly; [apply ParserPool_pos | apply chansize_pos].
  - intros input s Hs. split; [|apply reducer_work_succeeds].
    revert Hs.
    apply pool_closes_correctly; [apply ReducerPool_pos | apply chansize_pos].
Qed.

(** A complete run of each stage on one input: a chunk holding one
    comment line, and a batch of one record. *)
Lemma stages_close_after_all_tasks_witness :
  let chunk := bytes_of "#fields" in
  let batch := [Parser.Conn "128.252.7.9" "10.0.0.1" 150] in
  let sp := Stage.State [] Stage.Returned 0 [] [[Parser.zero_conn]] [] 1 false in
  let sr := Stage.State [] Stage.Returned 0 [] [Reducer.Reduce batch] [] 1 false in
  (Stage.reachable parser_work ParserPool chansize [chunk] sp
   /\ Stage.closes_correctly parser_work ParserPool chansize [chunk] sp)
  /\ (Stage.reachable reducer_work ReducerPool chansize [batch] sr
      /\ Stage.closes_correctly reducer_work ReducerPool chansize [batch] sr).
Proof.
  cbv zeta.
  assert (Hp : Stage.reachable parser_work ParserPool chansize
                 [bytes_of "#fields"]
                 (Stage.State [] Stage.Returned 0 [] [[Parser.zero_conn]] [] 1 false)).
  { apply run_one; [reflexivity | apply ParserPool_pos | apply chansize_pos]. }
  assert (Hr : Stage.reachable reducer_work ReducerPool chansize
                 [[Parser.Conn "128.252.7.9" "10.0.0.1" 150]]
                 (Stage.State [] Stage.Returned 0 []
                    [Reducer.Reduce [Parser.Conn "128.252.7.9" "10.0.0.1" 150]]
                    [] 1 false)).
  { apply run_one; [reflexivity | apply ReducerPool_pos | apply chansize_pos]. }
  split; (split; [assumption|]).
  - apply (proj1 stages_close_after_all_tasks _ _ Hp).
  - apply (proj2 stages_close_after_all_tasks _ _ Hr).
Defined.

End PoolsOfMain.

(** ** Pipeline: how the process ends *)

Section PipelineFacts.
Import Pipeline.

Lemma loop_fatal bsize reads : forall lo out,
  Reader.hits_error reads = true ->
  exists chunks, Reader.loop bsize reads lo out = Reader.Fatal chunks.
Proof.
  induction reads as [|[[|b data]|] reads IH]; intros lo out H; try done.
  - cbn [Reader.loop length]. cbn [Reader.hits_error] in H.
    destruct (Reader.scan _ _); by apply IH.
  - by eexists.
Qed.

(** The fatal conditions that the program detects end the process
    without a report: bad flags, a plain file that cannot be opened, a
    pipe that cannot be created, and a read error. *)
Lemma main_fails w filename bsize :
  filename = EmptyString
  \/ bsize <= 0
  \/ GetReader w filename = SourceFatal
  \/ GetReader w filename = SourcePanic
  \/ (exists reads, GetReader w filename = Source reads
                    /\ Reader.hits_error reads = true) ->
  main w filename bsize = Failed.
Proof.
  unfold main. intros H.
  destruct (String.eqb filename EmptyString) eqn:Ef; [done|].
  destruct (bsize <=? 0) eqn:Eb; [done|].
  destruct H as [->|[Hb|[->|[->|(reads & -> & Hr)]]]]; try done.
  - apply Z.leb_gt in Eb. lia.
  - destruct (loop_fatal (Z.to_nat bsize) reads [] [] Hr) as [chunks Hc].
    unfold Reader.Start. by rewrite Hc.
Qed.

Lemma GetReader_plain_unreadable w filename :
  HasSuffix filename ".gz" = false -> os_Open w filename = None ->
  GetReader w filename = SourceFatal.
Proof. unfold GetReader. by intros -> ->. Qed.

(** [GetReader] and [main] never look at the exit status of the
    decompressor. *)
Lemma main_ignores_exit_status w filename bsize (status : string -> list string -> Z) :
  main (World (os_Open w) (StdoutPipe_ok w)
          (fun c args => Process (stdout (exec_Command w c args)) (status c args)))
       filename bsize
  = main w filename bsize.
Proof. reflexivity. Qed.

(** C8.  The decompressor fails (exit status 1) after writing one log
    line: the program reads the line, reaches the end of the pipe,
    finishes normally and prints a report computed from the part that
    was read.  When the decompressor cannot read its input and writes
    nothing, the program likewise finishes normally, with an empty
    report, instead of failing. *)
Theorem failed_decompressor_still_reports :
  exit_status (exec_Command damaged_archive Unzipper ["-c"; "conn.log.gz"]%string) = 1
  /\ main damaged_archive "conn.log.gz" 4096
     = Reported [Combiner.Line "128.252.7.9" 150 150]
  /\ exit_status (exec_Command unreadable_archive Unzipper ["-c"; "conn.log.gz"]%string) = 1
  /\ main unreadable_archive "conn.log.gz" 4096 = Reported [].
Proof. repeat split; vm_compute; reflexivity. Qed.

End PipelineFacts.

(** * Further properties of the code *)

(** ** Reader.Start *)

Section ReaderMore.
Import Reader.

Lemma loop_fatal_inv bsize reads : forall lo out chunks,
  loop bsize reads lo out = Fatal chunks -> hits_error reads = true.
Proof.
  induction reads as [|[[|b data]|] reads IH]; intros lo out chunks; try done.
  cbn [loop length hits_error]. destruct (scan _ _); apply IH.
Qed.

Lemma loop_chunk_count bsize reads : forall lo out,
  (length (chunks_of (loop bsize reads lo out))
   <= length out + length (consumed bsize reads))%nat.
Proof.
  induction reads as [|[[|b data]|] reads IH]; intros lo out;
    try (cbn; lia).
  cbn [loop length consumed]. destruct (scan _ _).
  - etransitivity; [apply IH|]. rewrite length_app. cbn. lia.
  - etransitivity; [apply IH|]. lia.
Qed.

Lemma loop_tiny bsize reads : forall lo out,
  Forall tiny_read reads -> chunks_of (loop bsize reads lo out) = out.
Proof.
  induction reads as [|[[|b data]|] reads IH]; intros lo out H; try done.
  apply Forall_cons in H as [Ht H]. cbn [tiny_read length] in Ht.
  destruct data; [|cbn in Ht; lia].
  cbn [loop length scan]. by apply IH.
Qed.

(** X1.  Whatever the reads deliver, [Start] neither loses nor invents
    a byte of the buffers it processed: the chunks sent, each followed
    by a line terminator, and then the bytes still held in [leftovers]
    when the loop ends, are the concatenation of the buffers (each
    buffer being the block read followed by its unused zero tail). *)
Theorem Start_conserves_buffers bsize reads :
  exists lo,
    unframe (chunks_of (Start bsize reads)) lo = concat (consumed bsize reads).
Proof. apply (loop_frames bsize reads [] []). Qed.

(** X2 at a file of two full blocks of four bytes. *)
Lemma Start_reassembles_full_reads_witness :
  let reads := [ReadOk (bytes_of (ln "ab" ++ "c")); ReadOk (bytes_of (ln "de" ++ "f"))] in
  (0 < 4)%nat /\ Forall (full_read 4) reads
  /\ Start 4 reads = Closed [bytes_of "ab"; bytes_of "cde"]
  /\ exists chunks lo,
       Start 4 reads = Closed chunks /\ unframe chunks lo = contents reads.
Proof.
  cbv zeta.
  assert (Hf : Forall (full_read 4)
                 [ReadOk (bytes_of (ln "ab" ++ "c"));
                  ReadOk (bytes_of (ln "de" ++ "f"))]).
  { constructor; [reflexivity|]. constructor; [reflexivity|constructor]. }
  split; [lia|]. split; [exact Hf|]. split; [reflexivity|].
  apply (Start_reassembles_full_reads 4 _ (Nat.lt_0_succ 3) Hf).
Defined.

(** X3.  [Start] ends in [Error.Fatalln] exactly when the loop reaches
    a read error, that is when an error is returned before any read of
    length 0 and before the end of the stream; otherwise it closes its
    queue. *)
Theorem Start_fatal_iff_read_error bsize reads :
  (exists chunks, Start bsize reads = Fatal chunks) <-> hits_error reads = true.
Proof.
  split.
  - intros [chunks H]. by eapply loop_fatal_inv.
  - apply loop_fatal.
Qed.

(** X4.  Each read yields at most one chunk: a block that holds
    several line terminators is cut once, at the last of them, so the
    number of chunks never exceeds the number of non-empty reads. *)
Theorem Start_one_chunk_per_read bsize reads :
  (length (chunks_of (Start bsize reads)) <= length (consumed bsize reads))%nat
  /\ (length (consumed bsize reads) <= length reads)%nat.
Proof.
  split.
  - apply (loop_chunk_count bsize reads [] []).
  - induction reads as [|[[|b data]|] reads IH]; cbn [consumed length]; lia.
Qed.

(** X5.  A read of a single byte never produces a chunk, because index
    0 of a block is not inspected: when every read delivers at most one
    byte (always so for a block size of 1), nothing is ever sent. *)
Theorem Start_single_byte_reads_send_nothing bsize reads :
  Forall tiny_read reads -> chunks_of (Start bsize reads) = [].
Proof. apply loop_tiny. Qed.

(** X5 at the input "a\nb\n" read byte by byte. *)
Lemma Start_single_byte_reads_send_nothing_witness :
  let reads := [ReadOk (bytes_of "a"); ReadOk (bytes_of (ln EmptyString));
                ReadOk (bytes_of "b"); ReadOk (bytes_of (ln EmptyString))] in
  Forall tiny_read reads /\ chunks_of (Start 1 reads) = [].
Proof.
  cbv zeta.
  assert (H : Forall tiny_read
                [ReadOk (bytes_of "a"); ReadOk (bytes_of (ln EmptyString));
                 ReadOk (bytes_of "b"); ReadOk (bytes_of (ln EmptyString))]).
  { repeat constructor. }
  split; [exact H|]. apply (Start_single_byte_reads_send_nothing 1 _ H).
Defined.

End ReaderMore.

(** ** Parser.Parse *)

Section ParserMore.
Import Parser.

Lemma Split_length s sep : length (Split s sep) = S (count_sep s sep).
Proof.
  induction s as [|c s IH]; [done|]. cbn [Split count_sep].
  destruct (Ascii.eqb c sep); cbn [length]; [by rewrite IH|].
  destruct (Split s sep); cbn [length] in *; lia.
Qed.

(** X6.  Splitting loses nothing: joining the fields of a line (or the
    lines of a chunk) with the separator gives the text back. *)
Theorem Split_concat_round_trip s sep :
  String.concat (String sep EmptyString) (Split s sep) = s.
Proof.
  induction s as [|c s IH]; [done|]. cbn [Split].
  pose proof (Split_length s sep) as Hl.
  destruct (Split s sep) as [|f fs]; [done|]. clear Hl.
  destruct (Ascii.eqb c sep) eqn:E.
  - apply Ascii.eqb_eq in E. subst c. by rewrite <- IH.
  - rewrite <- IH. by destruct fs.
Qed.

(** X7.  A batch that [Parse] sends consists of as many zero records
    as the chunk has lines, followed by one record per non-comment
    line, in line order; so its length is the number of lines plus the
    number of non-comment lines, between one and two times the number
    of lines. *)
Theorem Parse_returns_zeros_then_records fileslice batch :
  Parse fileslice = Ok batch ->
  let lines := Split (string_of_list_byte fileslice) lf in
  (exists rs,
     batch = repeat zero_conn (length lines) ++ rs /\
     Forall2 (fun line c => parse_line line = Ok c) (kept lines) rs)
  /\ length batch = (length lines + length (kept lines))%nat
  /\ (length lines <= length batch <= 2 * length lines)%nat.
Proof.
  intros H lines. split; [by apply Parse_batch|].
  destruct (Parse_batch _ _ H) as (rs & -> & Hrs). fold lines in Hrs.
  apply Forall2_length in Hrs.
  rewrite length_app, repeat_length. fold lines. split; [lia|].
  rewrite <- Hrs. unfold kept.
  pose proof (filter_length_le (fun line => negb (is_comment line)) lines).
  lia.
Qed.

(** X7 at a chunk of one comment line and one record line. *)
Lemma Parse_returns_zeros_then_records_witness :
  let chunk :=
    bytes_of (ln "#fields" ++ log_line "128.252.7.9" "10.0.0.1" "100" "50") in
  Parse chunk = Ok [zero_conn; zero_conn; Conn "128.252.7.9" "10.0.0.1" 150]
  /\ length [zero_conn; zero_conn; Conn "128.252.7.9" "10.0.0.1" 150]
     = (length (Split (string_of_list_byte chunk) lf)
        + length (kept (Split (string_of_list_byte chunk) lf)))%nat.
Proof.
  cbv zeta.
  assert (H : Parse (bytes_of (ln "#fields"
                       ++ log_line "128.252.7.9" "10.0.0.1" "100" "50"))
              = Ok [zero_conn; zero_conn; Conn "128.252.7.9" "10.0.0.1" 150])
    by reflexivity.
  split; [exact H|].
  apply (proj1 (proj2 (Parse_returns_zeros_then_records _ _ H))).
Defined.

(** X8.  [Parse] panics exactly when the chunk has an empty line, or a
    line that does not start with '#' and holds fewer than 18 tab
    characters. *)
Theorem Parse_panics_iff fileslice :
  Parse fileslice = Panic <->
  Exists (fun line =>
            line = EmptyString \/
            (is_comment line = false /\ (count_sep line tab < 18)%nat))
         (Split (string_of_list_byte fileslice) lf).
Proof.
  rewrite Parse_panics, !Exists_exists. unfold fatal_line.
  split; intros (line & Hin & H); exists line; (split; [done|]);
    rewrite Split_length in *;
    (destruct H as [?|[? ?]]; [by left | right; split; [done|lia]]).
Qed.

(** X9.  Comment lines have no effect on the loop: running it on all
    lines or on the non-comment lines only gives the same result, panic
    included. *)
Theorem parse_lines_skips_comments lines ds :
  parse_lines lines ds = parse_lines (kept lines) ds.
Proof.
  revert ds. induction lines as [|line lines IH]; intros ds; [done|].
  unfold kept. cbn [List.filter]. fold (kept lines).
  destruct line as [|c line]; [done|].
  cbn [is_comment parse_lines]. destruct (Ascii.eqb c "#") eqn:E; cbn [negb].
  - apply IH.
  - cbn [parse_lines]. rewrite E.
    destruct (parse_line (String c line)); [apply IH | done].
Qed.





End ParserMore.

(** ** Reducer.Reduce and Combiner.Start *)

Section TallyMore.
Import Parser Reducer Combiner.

Lemma wrap64_add_r a b : wrap64 (a + wrap64 b) = wrap64 (a + b).
Proof. rewrite (Z.add_comm a), wrap64_add_l. f_equal. lia. Qed.

Lemma step_irrelevant (tt : gmap string Z) c :
  relevant c = false -> step tt c = tt.
Proof.
  unfold relevant, step. intros H. apply orb_false_iff in H as [-> ->]. done.
Qed.

Lemma foldl_step_filter data : forall tt : gmap string Z,
  foldl step tt (List.filter relevant data) = foldl step tt data.
Proof.
  induction data as [|c data IH]; intros tt; [done|].
  cbn [List.filter foldl]. destruct (relevant c) eqn:E.
  - cbn [foldl]. apply IH.
  - rewrite (step_irrelevant _ _ E). apply IH.
Qed.

(** X11.  Records without an address in 128.252. do not influence the
    partial tally: dropping them from the batch gives the same map.
    In particular the zero records that [Parse] puts in front of every
    batch are harmless. *)
Theorem Reduce_ignores_unmatched_records data :
  Reduce (List.filter relevant data) = Reduce data
  /\ (forall n, Reduce (repeat zero_conn n ++ data) = Reduce data).
Proof.
  split; [apply foldl_step_filter|].
  intros n. unfold Reduce. rewrite foldl_app.
  f_equal. induction n as [|n IH]; [done|]. cbn [repeat foldl].
  by rewrite (step_irrelevant ∅ zero_conn eq_refl).
Qed.

Lemma credit_sum_app k d1 d2 :
  credit_sum k (d1 ++ d2) = credit_sum k d1 + credit_sum k d2.
Proof.
  induction d1 as [|c d1 IH]; [done|].
  cbn [app credit_sum foldr]. fold (credit_sum k (d1 ++ d2)) (credit_sum k d1).
  lia.
Qed.

Lemma credit_sum_perm k d1 d2 : d1 ≡ₚ d2 -> credit_sum k d1 = credit_sum k d2.
Proof.
  induction 1 as [|c d1 d2 _ IH|c1 c2 d|d1 d2 d3 _ IH1 _ IH2].
  - done.
  - cbn [credit_sum foldr]. fold (credit_sum k d1) (credit_sum k d2). lia.
  - cbn [credit_sum foldr]. lia.
  - congruence.
Qed.

Lemma Exists_perm {X} (P : X -> Prop) l1 l2 :
  l1 ≡ₚ l2 -> Exists P l1 <-> Exists P l2.
Proof.
  intros H. rewrite !Exists_exists.
  split; intros (x & Hx & HP); exists x; split; try done.
  - by rewrite <- H.
  - by rewrite H.
Qed.

(** X12.  The partial tally does not depend on the order of the
    records in the batch. *)
Theorem Reduce_order_independent data data' :
  data ≡ₚ data' -> Reduce data = Reduce data'.
Proof.
  intros H. apply map_eq. intros k. rewrite !Reduce_lookup.
  rewrite (credit_sum_perm _ _ _ H).
  pose proof (Exists_perm (names k) _ _ H). repeat case_decide; tauto.
Qed.

(** X12 at a batch of two records, swapped. *)
Lemma Reduce_order_independent_witness :
  let c1 := Conn "128.252.7.9" "10.0.0.1" 150 in
  let c2 := Conn "10.0.0.1" "128.252.0.1" 7 in
  [c1; c2] ≡ₚ [c2; c1] /\ Reduce [c1; c2] = Reduce [c2; c1].
Proof.
  cbv zeta.
  assert (H : [Conn "128.252.7.9" "10.0.0.1" 150;
               Conn "10.0.0.1" "128.252.0.1" 7]
              ≡ₚ [Conn "10.0.0.1" "128.252.0.1" 7;
                  Conn "128.252.7.9" "10.0.0.1" 150])
    by apply perm_swap.
  split; [exact H|]. apply (Reduce_order_independent _ _ H).
Defined.

Lemma has_key_Reduce k b :
  has_key k (Reduce b) <-> matches k = true /\ Exists (names k) b.
Proof.
  unfold has_key. rewrite Reduce_lookup. case_decide as H.
  - split; [done|by eexists].
  - split; [by intros [? ?]|done].
Qed.

Lemma Reduce_default k b :
  matches k = true -> default 0 (Reduce b !! k) = wrap64 (credit_sum k b).
Proof.
  intros Hm. rewrite Reduce_lookup. case_decide as H; [done|].
  rewrite credit_sum_unnamed by tauto. done.
Qed.

Lemma tally_sum_Reduce k batches :
  matches k = true ->
  wrap64 (tally_sum k (Reduce <$> batches))
  = wrap64 (credit_sum k (concat batches)).
Proof.
  intros Hm. induction batches as [|b batches IH]; [done|].
  rewrite fmap_cons. cbn [tally_sum foldr concat].
  fold (tally_sum k (Reduce <$> batches)).
  rewrite credit_sum_app, (Reduce_default _ _ Hm), wrap64_add_l.
  rewrite <- (wrap64_add_r (credit_sum k b) (tally_sum k (Reduce <$> batches))).
  rewrite IH. apply wrap64_add_r.
Qed.

Lemma Exists_concat_names k (batches : list (list conn)) :
  Exists (names k) (concat batches)
  <-> Exists (fun b => Exists (names k) b) batches.
Proof.
  induction batches as [|b batches IH].
  - cbn. by rewrite !Exists_nil.
  - cbn [concat]. by rewrite Exists_app, Exists_cons, IH.
Qed.

Lemma Start_is_Reduce_concat batches inq :
  Forall2 (fun e b => enumerates e (Reduce b)) inq batches ->
  Start inq = Reduce (concat batches).
Proof.
  intros H.
  assert (H' : Forall2 enumerates inq (Reduce <$> batches)).
  { induction H; constructor; done. }
  apply map_eq. intros k.
  rewrite (Start_sum _ _ _ H'), Reduce_lookup.
  assert (Hk : Exists (has_key k) (Reduce <$> batches)
               <-> matches k = true /\ Exists (names k) (concat batches)).
  { rewrite Exists_concat_names, Exists_fmap. clear.
    induction batches as [|b batches IH].
    - rewrite !Exists_nil. tauto.
    - rewrite !Exists_cons, IH. cbn. rewrite has_key_Reduce. tauto. }
  destruct (decide (Exists (has_key k) (Reduce <$> batches))) as [He|He];
    destruct (decide (matches k = true /\ Exists (names k) (concat batches)))
      as [Hc|Hc]; try tauto.
  f_equal. apply tally_sum_Reduce. tauto.
Qed.

(** X13.  Cutting the records into batches changes nothing: merging
    the partial tallies of the batches, in the order given and with any
    enumeration of each map, gives the tally that [Reduce] computes for
    all the records in one batch. *)
Theorem merge_of_tallies_is_tally_of_all_records batches inq :
  Forall2 (fun e b => enumerates e (Reduce b)) inq batches ->
  Start inq = Reduce (concat batches).
Proof. apply Start_is_Reduce_concat. Qed.

(** X13 at two batches that share a key. *)
Lemma merge_of_tallies_is_tally_of_all_records_witness :
  let b1 := [Conn "128.252.7.9" "10.0.0.1" 150] in
  let b2 := [Conn "128.252.7.9" "128.252.0.1" 50] in
  Forall2 (fun e b => enumerates e (Reduce b))
    [map_to_list (Reduce b1); map_to_list (Reduce b2)] [b1; b2]
  /\ Start [map_to_list (Reduce b1); map_to_list (Reduce b2)]
     = Reduce (concat [b1; b2]).
Proof.
  cbv zeta.
  assert (H : Forall2 (fun e b => enumerates e (Reduce b))
    [map_to_list (Reduce [Conn "128.252.7.9" "10.0.0.1" 150]);
     map_to_list (Reduce [Conn "128.252.7.9" "128.252.0.1" 50])]
    [[Conn "128.252.7.9" "10.0.0.1" 150];
     [Conn "128.252.7.9" "128.252.0.1" 50]]).
  { constructor; [apply Permutation_refl|].
    constructor; [apply Permutation_refl|constructor]. }
  split; [exact H|].
  apply (merge_of_tallies_is_tally_of_all_records _ _ H).
Defined.



(** X15.  When no record of any batch has an address in 128.252., the
    merged tally is empty and the report prints nothing. *)
Theorem no_local_address_no_report batches inq it :
  Forall (fun b => Forall (fun c => relevant c = false) b) batches ->
  Forall2 (fun e b => enumerates e (Reduce b)) inq batches ->
  enumerates it (Start inq) ->
  Start inq = ∅ /\ it = [] /\ Report it = [].
Proof.
  intros Hirr Hinq Hit.
  assert (Hs : Start inq = ∅).
  { rewrite (Start_is_Reduce_concat _ _ Hinq).
    unfold Reduce. rewrite <- foldl_step_filter.
    assert (Hf : List.filter relevant (concat batches) = []).
    { clear Hinq Hit. induction Hirr as [|b batches Hb _ IH]; [done|].
      cbn [concat]. rewrite List.filter_app, IH, app_nil_r.
      clear -Hb. induction Hb as [|c b Hc _ IH]; [done|].
      cbn [List.filter]. by rewrite Hc. }
    by rewrite Hf. }
  split; [done|].
  unfold enumerates in Hit. rewrite Hs, map_to_list_empty in Hit.
  apply Permutation_nil_r in Hit. by subst it.
Qed.

(** X15 at two batches of remote traffic. *)
Lemma no_local_address_no_report_witness :
  let b1 := [Conn "10.0.0.1" "10.0.0.2" 150] in
  let b2 := [Conn "192.168.1.1" "10.0.0.1" 50; zero_conn] in
  let inq := [map_to_list (Reduce b1); map_to_list (Reduce b2)] in
  Forall (fun b => Forall (fun c => relevant c = false) b) [b1; b2]
  /\ Start inq = ∅
  /\ Report (map_to_list (Start inq)) = [].
Proof.
  cbv zeta.
  set (b1 := [Conn "10.0.0.1" "10.0.0.2" 150]).
  set (b2 := [Conn "192.168.1.1" "10.0.0.1" 50; zero_conn]).
  assert (H1 : Forall (fun b => Forall (fun c => relevant c = false) b) [b1; b2]).
  { repeat constructor. }
  assert (H2 : Forall2 (fun e b => enumerates e (Reduce b))
                 [map_to_list (Reduce b1); map_to_list (Reduce b2)] [b1; b2]).
  { constructor; [apply Permutation_refl|].
    constructor; [apply Permutation_refl|constructor]. }
  assert (H3 : enumerates
                 (map_to_list (Start [map_to_list (Reduce b1); map_to_list (Reduce b2)]))
                 (Start [map_to_list (Reduce b1); map_to_list (Reduce b2)])).
  { apply Permutation_refl. }
  destruct (no_local_address_no_report _ _ _ H1 H2 H3) as (Hs & _ & Hr).
  split; [exact H1|]. split; [exact Hs | exact Hr].
Defined.

End TallyMore.

(** ** Combiner.Report *)

#[local] Instance Z_ge_transitive : Transitive Z.ge.
Proof. intros x y z. lia. Qed.

Section ReportMore.
Import Combiner.

Lemma collect_all_keys (tt : list (string * Z)) : forall a : acc,
  keys (foldl collect a tt) = keys a ++ tt.*2.
Proof.
  induction tt as [|[k v] tt IH]; intros a; [by rewrite app_nil_r|].
  cbn [foldl]. rewrite IH. cbn [collect keys]. rewrite fmap_cons.
  by rewrite <- app_assoc.
Qed.

Lemma collect_all_tbytes (tt : list (string * Z)) : forall a : acc,
  tbytes (foldl collect a tt) = foldl add64 (tbytes a) (tt.*2).
Proof.
  induction tt as [|[k v] tt IH]; intros a; [done|].
  cbn [foldl]. rewrite IH. done.
Qed.

(** [swapped] keeps, for each total, the first key met with it. *)
Lemma collect_all_swapped (tt : list (string * Z)) : forall (a : acc) (v : Z),
  swapped (foldl collect a tt) !! v =
    match swapped a !! v with
    | Some l => Some l
    | None => (fun k : string => [k]) <$> owner tt v
    end.
Proof.
  induction tt as [|[k v'] tt IH]; intros a v.
  - cbn. by destruct (swapped a !! v).
  - cbn [foldl owner]. rewrite IH. cbn [collect swapped].
    destruct (swapped a !! v') eqn:Hv'.
    + destruct (Z.eqb_spec v' v) as [->|Hne]; [by rewrite Hv'|done].
    + destruct (Z.eqb_spec v' v) as [->|Hne].
      * by rewrite lookup_insert_eq, Hv'.
      * by rewrite lookup_insert_ne.
Qed.

Lemma print_keys_closed (tt : list (string * Z)) (sw : gmap Z (list string))
    tb ks : forall n out,
  (forall v : Z, sw !! v = (fun k : string => [k]) <$> owner tt v) ->
  (n <= 10)%nat ->
  print_keys ks sw tb n out
  = out ++ firstn (10 - n)
             (omap (fun v => (fun k => Line k v tb) <$> owner tt v) ks).
Proof.
  intros n out Hsw. revert n out.
  induction ks as [|k ks IH]; intros n out Hn.
  - cbn. by rewrite firstn_nil, app_nil_r.
  - cbn [print_keys omap list_omap]. rewrite (Hsw k).
    destruct (owner tt k) as [i|];
      cbn [fmap option_fmap option_map default]; unfold id.
    + cbn [print_ips]. destruct (n <? 10)%nat eqn:E; cbn [print_ips].
      * apply Nat.ltb_lt in E. rewrite IH by lia.
        replace (10 - n)%nat with (S (10 - S n)) by lia.
        cbn [firstn]. by rewrite <- app_assoc.
      * apply Nat.ltb_ge in E. replace (10 - n)%nat with 0%nat by lia.
        cbn. by rewrite app_nil_r.
    + cbn [print_ips]. by apply IH.
Qed.

Lemma Report_closed tt :
  Report tt = firstn 10 (omap (line_for tt) (ranked tt)).
Proof.
  unfold Report, collect_all.
  rewrite collect_all_keys, collect_all_tbytes. cbn [keys tbytes].
  rewrite (print_keys_closed tt); [done| |lia].
  intros v. rewrite collect_all_swapped. cbn [swapped].
  by rewrite lookup_empty.
Qed.

Lemma owner_elem (tt : list (string * Z)) v k :
  owner tt v = Some k -> (k, v) ∈ tt.
Proof.
  induction tt as [|[k' v'] tt IH]; [done|]. cbn [owner].
  destruct (Z.eqb_spec v' v) as [->|Hne].
  - intros [= ->]. apply list_elem_of_here.
  - intros H. apply list_elem_of_further. by apply IH.
Qed.

Lemma owner_is_Some (tt : list (string * Z)) v :
  is_Some (owner tt v) <-> v ∈ tt.*2.
Proof.
  induction tt as [|[k' v'] tt IH].
  - cbn. split; [by intros [? ?]|by intros ?%elem_of_nil].
  - cbn [owner]. rewrite fmap_cons, elem_of_cons. cbn [snd].
    destruct (Z.eqb_spec v' v) as [->|Hne].
    + split; [by left | by eexists].
    + rewrite IH. split; [by right|]. intros [?|?]; [congruence|done].
Qed.

Lemma grand_total_sum (tt : list (string * Z)) :
  grand_total tt = wrap64 (foldr Z.add 0 tt.*2).
Proof.
  unfold grand_total.
  assert (H : forall (l : list Z) a,
             foldl add64 (wrap64 a) l = wrap64 (a + foldr Z.add 0 l)).
  { induction l as [|x l IH]; intros a; cbn [foldl foldr].
    - by rewrite Z.add_0_r.
    - unfold add64 at 2. rewrite wrap64_add_l, IH. f_equal. lia. }
  apply (H tt.*2 0).
Qed.

Lemma Report_line tt l :
  l ∈ Report tt ->
  (ip l, value l) ∈ tt /\ total l = wrap64 (foldr Z.add 0 tt.*2).
Proof.
  rewrite Report_closed. intros Hl. apply subseteq_take in Hl.
  apply list_elem_of_omap in Hl as (v & _ & Hv). unfold line_for in Hv.
  destruct (owner tt v) as [k|] eqn:Ho; [|done].
  injection Hv as <-. cbn [ip value total]. split; [by apply owner_elem|].
  apply grand_total_sum.
Qed.

Lemma values_of_lines (tt : list (string * Z)) (ks : list Z) :
  value <$> omap (line_for tt) ks = filter (fun v => v ∈ tt.*2) ks.
Proof.
  induction ks as [|v ks IH]; [done|].
  cbn [omap list_omap]. rewrite filter_cons. unfold line_for at 1.
  pose proof (owner_is_Some tt v) as Ho.
  destruct (owner tt v) as [k|]; cbn [fmap option_fmap option_map].
  - rewrite decide_True by (apply Ho; by eexists).
    rewrite fmap_cons. cbn [value]. by rewrite IH.
  - rewrite decide_False; [done|]. intros Hin. apply Ho in Hin. by destruct Hin.
Qed.

Lemma lines_filter (tt : list (string * Z)) (ks : list Z) :
  omap (line_for tt) ks = omap (line_for tt) (filter (fun v => v ∈ tt.*2) ks).
Proof.
  induction ks as [|v ks IH]; [done|].
  rewrite filter_cons. pose proof (owner_is_Some tt v) as Ho.
  case_decide as Hin.
  - cbn [omap list_omap]. by rewrite IH.
  - cbn [omap list_omap]. unfold line_for at 1.
    destruct (owner tt v); [destruct Hin; apply Ho; by eexists|]. apply IH.
Qed.

Lemma Sorted_ge_filter (P : Z -> Prop) `{forall x, Decision (P x)} l :
  Sorted Z.ge l -> Sorted Z.ge (filter P l).
Proof.
  intros Hs. apply (Sorted_StronglySorted Z.ge) in Hs.
  apply StronglySorted_Sorted.
  induction Hs as [|x l Hl IH Hx]; [constructor|].
  rewrite filter_cons. case_decide; [|done].
  constructor; [done|]. apply Forall_forall. intros y Hy.
  apply list_elem_of_filter in Hy as [_ Hy].
  rewrite Forall_forall in Hx. by apply Hx.
Qed.

(** Without a zero total, the entries of the sorted [keys] that are
    totals of the map are the totals in descending order. *)
Lemma ranked_totals (tt : list (string * Z)) :
  0 ∉ tt.*2 ->
  filter (fun v => v ∈ tt.*2) (ranked tt) = sort_desc tt.*2.
Proof.
  intros H0. unfold ranked.
  apply (Sorted_unique_strong Z.ge).
  - intros x1 x2 _ _. lia.
  - apply Sorted_ge_filter, sort_desc_sorted.
  - apply sort_desc_sorted.
  - rewrite !sort_desc_perm, filter_app.
    assert (filter (fun v => v ∈ tt.*2) (repeat 0 (length tt)) = []) as ->.
    { induction (length tt) as [|n IH]; [done|].
      cbn [repeat]. rewrite filter_cons, decide_False by done. done. }
    cbn [app].
    assert (Hall : forall l : list Z, (forall x, x ∈ l -> x ∈ tt.*2) ->
                     filter (fun v => v ∈ tt.*2) l = l).
    { induction l as [|x l IH]; intros Hl; [done|].
      rewrite filter_cons, decide_True by (apply Hl, list_elem_of_here).
      f_equal. apply IH. intros y Hy. by apply Hl, list_elem_of_further. }
    by rewrite Hall.
Qed.

Lemma NoDup_ips (tt : list (string * Z)) (ks : list Z) :
  NoDup tt.*1 -> NoDup ks -> NoDup (ip <$> omap (line_for tt) ks).
Proof.
  intros Hk. induction 1 as [|v ks Hv Hks IH]; [constructor|].
  cbn [omap list_omap]. unfold line_for at 1.
  destruct (owner tt v) as [k|] eqn:Ho;
    cbn [fmap option_fmap option_map]; [|done].
  rewrite fmap_cons. cbn [ip]. constructor; [|done].
  intros Hin. apply list_elem_of_fmap in Hin as (l & Hl & Hin).
  apply list_elem_of_omap in Hin as (v' & Hv' & Hline).
  unfold line_for in Hline.
  destruct (owner tt v') as [k'|] eqn:Ho'; [|done].
  injection Hline as <-. cbn [ip] in Hl. subst k'.
  apply owner_elem in Ho, Ho'.
  assert (v = v'); [|by subst].
  clear -Hk Ho Ho'.
  induction tt as [|[k0 v0] tt IH]; [by apply elem_of_nil in Ho|].
  rewrite fmap_cons in Hk. apply NoDup_cons in Hk as [Hk0 Hk].
  apply elem_of_cons in Ho as [Ho|Ho], Ho' as [Ho'|Ho'].
  - congruence.
  - injection Ho as -> ->. destruct Hk0.
    apply list_elem_of_fmap. by exists (k0, v').
  - injection Ho' as -> ->. destruct Hk0.
    apply list_elem_of_fmap. by exists (k0, v).
  - by apply IH.
Qed.

(** X16.  What [Report] prints, in closed form: it walks the sorted
    list [keys] (len(tt) zeros and all totals, descending), prints for
    each entry that is a total of the map the first key enumerated with
    that total, and stops after ten lines.  A key that shares its total
    with an earlier key is therefore replaced by that key. *)
Theorem Report_prints_first_owner_of_ranked_keys tt :
  Report tt = firstn 10 (omap (line_for tt) (ranked tt)).
Proof. apply Report_closed. Qed.

(** X17.  Every printed line shows a key of the map with that key's
    own total, and the same grand total: the sum of all totals reduced
    to 64 bits. *)
Theorem Report_lines_are_entries tt l :
  l ∈ Report tt ->
  (ip l, value l) ∈ tt /\ total l = wrap64 (foldr Z.add 0 tt.*2).
Proof. apply Report_line. Qed.

(** X17 at a map of two entries. *)
Lemma Report_lines_are_entries_witness :
  let tt := [("128.252.0.1"%string, 3); ("128.252.0.2"%string, 10)] in
  Line "128.252.0.2" 10 13 ∈ Report tt
  /\ ("128.252.0.2"%string, 10) ∈ tt
  /\ 13 = wrap64 (foldr Z.add 0 tt.*2).
Proof.
  cbv zeta.
  assert (H : Line "128.252.0.2" 10 13
              ∈ Report [("128.252.0.1"%string, 3); ("128.252.0.2"%string, 10)]).
  { apply list_elem_of_here. }
  split; [exact H|]. apply (Report_lines_are_entries _ _ H).
Defined.

(** X18.  When no key has the total 0, the totals printed are the ten
    largest totals of the map in descending order (all of them when the
    map has fewer than ten keys), so the number of lines is the smaller
    of 10 and the number of keys. *)
Theorem Report_prints_top_totals tt :
  0 ∉ tt.*2 ->
  value <$> Report tt = take 10 (sort_desc tt.*2)
  /\ Sorted Z.ge (value <$> Report tt)
  /\ length (Report tt) = min 10 (length tt).
Proof.
  intros H0.
  assert (Hv : value <$> Report tt = take 10 (sort_desc tt.*2)).
  { by rewrite Report_closed, fmap_take, values_of_lines, ranked_totals. }
  split; [done|]. split.
  - rewrite Hv.
    pose proof (sort_desc_sorted tt.*2) as Hs.
    apply (Sorted_StronglySorted Z.ge) in Hs.
    apply StronglySorted_Sorted.
    rewrite <- (take_drop 10 (sort_desc tt.*2)) in Hs.
    by apply StronglySorted_app_1_l in Hs.
  - rewrite <- (length_fmap value), Hv, length_take.
    by rewrite (Permutation_length (sort_desc_perm _)), length_fmap.
Qed.

(** X18 at a map of three keys, two of them tied. *)
Lemma Report_prints_top_totals_witness :
  let tt := [("128.252.0.1"%string, 5); ("128.252.0.2"%string, 9);
             ("128.252.0.3"%string, 5)] in
  (0 ∉ tt.*2)
  /\ value <$> Report tt = [9; 5; 5]
  /\ length (Report tt) = min 10 (length tt).
Proof.
  cbv zeta.
  set (tt := [("128.252.0.1"%string, 5); ("128.252.0.2"%string, 9);
              ("128.252.0.3"%string, 5)]).
  assert (H0 : 0 ∉ tt.*2).
  { intros H. repeat (apply elem_of_cons in H as [H|H]; [discriminate|]).
    by apply elem_of_nil in H. }
  destruct (Report_prints_top_totals tt H0) as (Hv & _ & Hl).
  split; [exact H0|]. split; [reflexivity | exact Hl].
Defined.

(** X19.  When the totals are pairwise distinct and none is 0, the
    report is as intended: no key is printed twice, the number of lines
    is the smaller of 10 and the number of keys, and every line pairs a
    key with its own total. *)
Theorem Report_distinct_totals_distinct_keys tt :
  NoDup tt.*1 -> NoDup tt.*2 -> 0 ∉ tt.*2 ->
  NoDup (ip <$> Report tt)
  /\ length (Report tt) = min 10 (length tt)
  /\ (forall l, l ∈ Report tt -> (ip l, value l) ∈ tt).
Proof.
  intros Hk Hv H0. split; [|split].
  - rewrite Report_closed, fmap_take, lines_filter, ranked_totals by done.
    eapply sublist_NoDup; [|apply sublist_take].
    apply NoDup_ips; [done|]. by rewrite sort_desc_perm.
  - rewrite <- (length_fmap value), Report_closed, fmap_take, values_of_lines.
    rewrite ranked_totals by done. rewrite length_take.
    by rewrite (Permutation_length (sort_desc_perm _)), length_fmap.
  - intros l Hl. by apply Report_line.
Qed.

(** X19 at a map of three keys with distinct totals. *)
Lemma Report_distinct_totals_distinct_keys_witness :
  let tt := [("128.252.0.1"%string, 5); ("128.252.0.2"%string, 9);
             ("128.252.0.3"%string, -2)] in
  NoDup (tt.*1) /\ NoDup (tt.*2) /\ (0 ∉ tt.*2)
  /\ ip <$> Report tt = ["128.252.0.2"; "128.252.0.1"; "128.252.0.3"]%string
  /\ NoDup (ip <$> Report tt).
Proof.
  cbv zeta.
  set (tt := [("128.252.0.1"%string, 5); ("128.252.0.2"%string, 9);
              ("128.252.0.3"%string, -2)]).
  assert (Hk : NoDup (tt.*1)) by compute_done.
  assert (Hv : NoDup (tt.*2)) by compute_done.
  assert (H0 : 0 ∉ tt.*2) by compute_done.
  destruct (Report_distinct_totals_distinct_keys tt Hk Hv H0) as (Hn & _ & _).
  split; [exact Hk|]. split; [exact Hv|]. split; [exact H0|].
  split; [reflexivity | exact Hn].
Defined.

End ReportMore.

(** ** Parser.Start and Reducer.Start *)

Section StageMore.
Context {A B : Type}.
Variable work : A -> result B.
Variable pool : nat.
Variable chansize : nat.
Import Stage.

Local Abbreviation step := (Stage.step work pool chansize).
Local Abbreviation reachable := (Stage.reachable work pool chansize).
Local Abbreviation bounded := (Stage.bounded pool chansize).

Lemma bounded_step (s s' : @Stage.state A B) :
  bounded s -> step s s' -> bounded s'.
Proof.
  unfold Stage.bounded. intros (Hl & Hp & Hq) Hstep.
  destruct Hstep;
    cbn [limiter tasks pc outq held_pc] in *;
    rewrite ?length_app in *; cbn [length] in *; lia.
Qed.

Lemma bounded_reachable input s : reachable input s -> bounded s.
Proof.
  unfold Stage.reachable. revert s.
  apply (rtc_ind_r (R := step) bounded).
  - unfold Stage.bounded, init. cbn. lia.
  - intros y z _ Hyz Hy. by eapply bounded_step.
Qed.

Lemma pool_bounds input s :
  reachable input s ->
  (length (tasks s) <= pool)%nat /\ (limiter s <= pool)%nat
  /\ (length (outq s) <= chansize)%nat.
Proof.
  intros H. destruct (bounded_reachable _ _ H) as (Hl & Hp & Hq). lia.
Qed.

(** A run on one input, stopped while its task is at work. *)
Lemma run_to_task x :
  (0 < pool)%nat ->
  reachable [x] (State [] Ranging 1 [Working x] [] [] 0 false).
Proof.
  intros Hpool. unfold Stage.reachable, init.
  eapply rtc_l; [apply step_receive|].
  eapply rtc_l; [by apply step_acquire|].
  eapply rtc_l; [apply step_spawn|].
  apply rtc_refl.
Qed.

(** A run on two inputs in which the second result is sent first. *)
Lemma run_two_reordered x1 x2 y1 y2 :
  work x1 = Ok y1 -> work x2 = Ok y2 ->
  (2 <= pool)%nat -> (2 <= chansize)%nat ->
  reachable [x1; x2] (State [] Returned 0 [] [y2; y1] [] 1 false).
Proof.
  intros H1 H2 Hpool Hchan. unfold Stage.reachable, init.
  eapply rtc_l; [apply step_receive|].
  eapply rtc_l; [apply step_acquire; lia|].
  eapply rtc_l; [apply step_spawn|].
  eapply rtc_l; [apply step_receive|].
  eapply rtc_l; [apply step_acquire; lia|].
  eapply rtc_l; [apply step_spawn|].
  eapply rtc_l; [apply step_drained|].
  cbn [app].
  eapply rtc_l;
    [apply (step_send _ _ _ [] Polling 2 [Working x1] x2 [] y2 [] [] H2);
     cbn; lia|].
  eapply rtc_l;
    [apply (step_send _ _ _ [] Polling 2 [] x1 [Releasing] y1 [y2] [] H1);
     cbn; lia|].
  eapply rtc_l;
    [apply (step_release _ _ _ [] Polling 1 [] [Releasing] [y2; y1] [] 0)|].
  eapply rtc_l; [apply (step_release _ _ _ [] Polling 0 [] [] [y2; y1] [] 0)|].
  eapply rtc_l; [apply step_close|].
  apply rtc_refl.
Qed.

End StageMore.

Section PoolsMore.
Import Pipeline.

(** X20.  Admission control and back-pressure: in every state the
    Parser stage can reach, at most 6 [Parse] goroutines are alive, the
    limiter holds at most 6 tokens and the output queue at most 10000
    batches; for the Reducer stage the bounds are 2, 2 and 10000. *)
Theorem pools_stay_within_capacity :
  (forall input s,
     Stage.reachable parser_work ParserPool chansize input s ->
     (length (Stage.tasks s) <= 6)%nat /\ (Stage.limiter s <= 6)%nat
     /\ Z.of_nat (length (Stage.outq s)) <= 10000)
  /\ (forall input s,
        Stage.reachable reducer_work ReducerPool chansize input s ->
        (length (Stage.tasks s) <= 2)%nat /\ (Stage.limiter s <= 2)%nat
        /\ Z.of_nat (length (Stage.outq s)) <= 10000).
Proof.
  split; intros input s Hs;
    destruct (pool_bounds _ _ _ _ _ Hs) as (Ht & Hl & Hq);
    unfold ParserPool, ReducerPool, chansize in *; lia.
Qed.

(** X20 at a state with one live task of each stage. *)
Lemma pools_stay_within_capacity_witness :
  let chunk := bytes_of "#fields" in
  let batch := [Parser.Conn "128.252.7.9" "10.0.0.1" 150] in
  let sp := Stage.State [] Stage.Ranging 1 [Stage.Working chunk] [] [] 0 false in
  let sr := Stage.State [] Stage.Ranging 1 [Stage.Working batch] [] [] 0 false in
  (Stage.reachable parser_work ParserPool chansize [chunk] sp
   /\ (length (Stage.tasks sp) <= 6)%nat)
  /\ (Stage.reachable reducer_work ReducerPool chansize [batch] sr
      /\ (length (Stage.tasks sr) <= 2)%nat).
Proof.
  cbv zeta.
  assert (Hp : Stage.reachable parser_work ParserPool chansize
                 [bytes_of "#fields"]
                 (Stage.State [] Stage.Ranging 1
                    [Stage.Working (bytes_of "#fields")] [] [] 0 false)).
  { apply run_to_task, ParserPool_pos. }
  assert (Hr : Stage.reachable reducer_work ReducerPool chansize
                 [[Parser.Conn "128.252.7.9" "10.0.0.1" 150]]
                 (Stage.State [] Stage.Ranging 1
                    [Stage.Working [Parser.Conn "128.252.7.9" "10.0.0.1" 150]]
                    [] [] 0 false)).
  { apply run_to_task, ReducerPool_pos. }
  split; (split; [assumption|]).
  - apply (proj1 pools_stay_within_capacity _ _ Hp).
  - apply (proj2 pools_stay_within_capacity _ _ Hr).
Defined.

(** X21.  The stages do not keep the order of their inputs: for any
    two chunks that parse, the Parser stage has a run that ends with
    the batch of the second chunk in front of the batch of the first
    in its output queue, and likewise the Reducer stage for any two
    batches. *)
Theorem results_can_overtake :
  (forall c1 c2 b1 b2,
     Parser.Parse c1 = Ok b1 -> Parser.Parse c2 = Ok b2 ->
     Stage.reachable parser_work ParserPool chansize [c1; c2]
       (Stage.State [] Stage.Returned 0 [] [b2; b1] [] 1 false))
  /\ (forall b1 b2,
        Stage.reachable reducer_work ReducerPool chansize [b1; b2]
          (Stage.State [] Stage.Returned 0 []
             [Reducer.Reduce b2; Reducer.Reduce b1] [] 1 false)).
Proof.
  split.
  - intros c1 c2 b1 b2 H1 H2.
    apply run_two_reordered; try done;
      unfold ParserPool, chansize; lia.
  - intros b1 b2.
    apply run_two_reordered; try done;
      unfold ReducerPool, chansize; lia.
Qed.

(** X21 at a comment chunk followed by a record chunk. *)
Lemma results_can_overtake_witness :
  let c1 := bytes_of "#fields" in
  let c2 := bytes_of (Parser.log_line "128.252.7.9" "10.0.0.1" "100" "50") in
  let b1 := [Parser.zero_conn] in
  let b2 := [Parser.zero_conn; Parser.Conn "128.252.7.9" "10.0.0.1" 150] in
  Parser.Parse c1 = Ok b1 /\ Parser.Parse c2 = Ok b2
  /\ Stage.reachable parser_work ParserPool chansize [c1; c2]
       (Stage.State [] Stage.Returned 0 [] [b2; b1] [] 1 false).
Proof.
  cbv zeta.
  assert (H1 : Parser.Parse (bytes_of "#fields") = Ok [Parser.zero_conn])
    by reflexivity.
  assert (H2 : Parser.Parse
                 (bytes_of (Parser.log_line "128.252.7.9" "10.0.0.1" "100" "50"))
               = Ok [Parser.zero_conn; Parser.Conn "128.252.7.9" "10.0.0.1" 150])
    by reflexivity.
  split; [exact H1|]. split; [exact H2|].
  apply (proj1 results_can_overtake _ _ _ _ H1 H2).
Defined.

End PoolsMore.

(** ** GetReader and main *)

Section PipelineMore.
Import Pipeline.



Lemma monitor_quiet dones : forall s t,
  0 < s -> s + Z.of_nat (length dones) <= 10000 -> monitor dones s t = [].
Proof.
  induction dones as [|d dones IH]; intros s t Hs Hlen; [done|].
  cbn [monitor length] in *.
  rewrite Z.rem_small by lia.
  destruct (Z.eqb_spec s 0) as [?|_]; [lia|]. cbn [app].
  apply IH.
  - unfold add64. rewrite wrap64_id; [lia|].
    unfold in_int64, int_min, int_max. lia.
  - unfold add64. rewrite wrap64_id; [lia|].
    unfold in_int64, int_min, int_max. lia.
Qed.

(** X23.  The progress display of [main] prints [total_done] only for
    the 1st, 10001st, ... integer it receives: while the Combiner
    merges at most 10000 partial tallies, exactly one progress value is
    shown, the size of the first partial tally, and none when there is
    no partial tally. *)
Theorem progress_shows_first_tally_only inq :
  Z.of_nat (length inq) <= 10000 ->
  progress_lines inq =
    match inq with
    | [] => []
    | subresult :: _ => [wrap64 (Z.of_nat (length subresult))]
    end.
Proof.
  intros Hlen. unfold progress_lines, Combiner.progress.
  destruct inq as [|it inq]; [done|].
  cbn [map fmap list_fmap monitor]. cbn [length] in Hlen.
  change (Z.rem 0 10000 =? 0) with true. cbn [app]. f_equal.
  apply monitor_quiet; [by vm_compute|].
  change (add64 0 1) with 1. rewrite length_fmap, length_map. lia.
Qed.

(** X23 at three partial tallies of sizes 2, 1 and 1. *)
Lemma progress_shows_first_tally_only_witness :
  let inq := [[("128.252.0.1"%string, 5); ("128.252.0.2"%string, 9)];
              [("128.252.0.1"%string, 1)]; [("128.252.0.3"%string, 4)]] in
  Z.of_nat (length inq) <= 10000 /\ progress_lines inq = [2].
Proof.
  cbv zeta.
  assert (H : Z.of_nat (length
                [[("128.252.0.1"%string, 5); ("128.252.0.2"%string, 9)];
                 [("128.252.0.1"%string, 1)]; [("128.252.0.3"%string, 4)]])
              <= 10000) by (cbn; lia).
  split; [exact H|].
  apply (progress_shows_first_tally_only _ H).
Defined.

End PipelineMore.

(** ** int64arr and the sort in Report *)

Section SortMore.
Import Combiner.

Lemma sorted_by_reverse_Sorted a : sorted_by reverse_Less a -> Sorted Z.ge a.
Proof.
  induction a as [|x a IH]; intros H; [constructor|].
  constructor.
  - apply IH. intros i j Hij.
    specialize (H (S i) (S j)). unfold reverse_Less, Less, Len in *.
    cbn [nth length] in H. apply H. lia.
  - destruct a as [|y a]; constructor.
    specialize (H 0%nat 1%nat). unfold reverse_Less, Less, Len in H.
    cbn [nth length] in H. apply Z.ltb_ge in H; lia.
Qed.

Lemma Sorted_sorted_by_reverse a : Sorted Z.ge a -> sorted_by reverse_Less a.
Proof.
  intros H. apply (Sorted_StronglySorted Z.ge) in H.
  induction H as [|x a Ha IH Hx]; intros i j Hij; unfold Len in *.
  - cbn in Hij. lia.
  - unfold reverse_Less, Less. destruct j as [|j]; [lia|].
    destruct i as [|i]; cbn [nth].
    + apply Z.ltb_ge. rewrite Forall_forall in Hx.
      assert (Hin : nth j a 0 ∈ a).
      { apply list_elem_of_In, nth_In. cbn [length] in Hij. lia. }
      specialize (Hx _ Hin). lia.
    + apply (IH i j). cbn [length] in Hij. unfold Len. lia.
Qed.

(** X24.  The slice that [sort.Sort(sort.Reverse(keys))] leaves is
    determined by the interface, whatever algorithm the library runs:
    [sort_desc a] is a rearrangement of [a] that is sorted for the
    reversed [Less], and every rearrangement of [a] that is sorted for
    the reversed [Less] is equal to it. *)
Theorem sort_result_is_determined a :
  sort_desc a ≡ₚ a
  /\ sorted_by reverse_Less (sort_desc a)
  /\ (forall b, b ≡ₚ a -> sorted_by reverse_Less b -> b = sort_desc a).
Proof.
  split; [apply sort_desc_perm|]. split.
  - apply Sorted_sorted_by_reverse, sort_desc_sorted.
  - intros b Hp Hs. apply (Sorted_unique_strong Z.ge).
    + intros x1 x2 _ _. lia.
    + by apply sorted_by_reverse_Sorted.
    + apply sort_desc_sorted.
    + by rewrite sort_desc_perm.
Qed.

(** X24 at a slice of four values with a tie. *)
Lemma sort_result_is_determined_witness :
  [7; 5; 5; 0] ≡ₚ [5; 0; 7; 5]
  /\ sorted_by reverse_Less [7; 5; 5; 0]
  /\ [7; 5; 5; 0] = sort_desc [5; 0; 7; 5].
Proof.
  assert (Hp : [7; 5; 5; 0] ≡ₚ [5; 0; 7; 5]).
  { change [7; 5; 5; 0] with (sort_desc [5; 0; 7; 5]).
    apply (proj1 (sort_result_is_determined [5; 0; 7; 5])). }
  assert (Hs : sorted_by reverse_Less [7; 5; 5; 0]).
  { change [7; 5; 5; 0] with (sort_desc [5; 0; 7; 5]).
    apply (proj1 (proj2 (sort_result_is_determined [5; 0; 7; 5]))). }
  split; [exact Hp|]. split; [exact Hs|].
  apply (proj2 (proj2 (sort_result_is_determined [5; 0; 7; 5])) _ Hp Hs).
Defined.

Lemma insert_head_perm (t : list Z) : forall j x y,
  t !! j = Some y -> y :: <[j:=x]> t ≡ₚ x :: t.
Proof.
  induction t as [|h t IH]; intros [|j] x y Hy; try done.
  - cbn in Hy. injection Hy as ->. apply perm_swap.
  - cbn in Hy. cbn [insert list_insert].
    rewrite (perm_swap h y), (IH j x y Hy). apply perm_swap.
Qed.

Lemma swap_perm_lt (a : list Z) : forall i j x y,
  (i < j)%nat -> a !! i = Some x -> a !! j = Some y ->
  <[j:=x]> (<[i:=y]> a) ≡ₚ a.
Proof.
  induction a as [|h a IH]; intros [|i] [|j] x y Hij Hx Hy; try done; try lia.
  - cbn in Hx, Hy. injection Hx as ->. cbn [insert list_insert].
    by apply insert_head_perm.
  - cbn in Hx, Hy. cbn [insert list_insert]. apply perm_skip.
    apply (IH i j); [lia|done|done].
Qed.

(** X25.  [Swap] with two indices inside the slice exchanges the two
    elements and keeps every other one: the result is a rearrangement
    of the same length with the values at [i] and [j] exchanged. *)
Theorem Swap_exchanges a i j :
  (i < Len a)%nat -> (j < Len a)%nat ->
  Swap a i j ≡ₚ a /\ Len (Swap a i j) = Len a
  /\ nth i (Swap a i j) 0 = nth j a 0 /\ nth j (Swap a i j) 0 = nth i a 0.
Proof.
  unfold Swap, Len. intros Hi Hj.
  destruct (lookup_lt_is_Some_2 a i Hi) as [x Hx].
  destruct (lookup_lt_is_Some_2 a j Hj) as [y Hy].
  rewrite (nth_lookup_Some _ _ 0 _ Hx), (nth_lookup_Some _ _ 0 _ Hy).
  split; [|split; [by rewrite !length_insert|]].
  - destruct (Nat.lt_trichotomy i j) as [Hlt|[->|Hgt]].
    + by apply swap_perm_lt.
    + rewrite list_insert_insert_eq. rewrite Hx in Hy. injection Hy as ->.
      by rewrite list_insert_id.
    + rewrite list_insert_insert_ne by lia. by apply swap_perm_lt.
  - split; apply nth_lookup_Some.
    + destruct (decide (i = j)) as [->|Hne].
      * rewrite list_lookup_insert_eq by (rewrite length_insert; lia).
        congruence.
      * rewrite list_lookup_insert_ne by done.
        by rewrite list_lookup_insert_eq.
    + by rewrite list_lookup_insert_eq by (rewrite length_insert; lia).
Qed.

(** X25 at a slice of three values. *)
Lemma Swap_exchanges_witness :
  (0 < Len [4; 8; 6]%Z)%nat /\ (2 < Len [4; 8; 6]%Z)%nat
  /\ Swap [4; 8; 6] 0 2 = [6; 8; 4]
  /\ Swap [4; 8; 6] 0 2 ≡ₚ [4; 8; 6].
Proof.
  assert (H0 : (0 < Len [4; 8; 6]%Z)%nat) by (cbn; lia).
  assert (H2 : (2 < Len [4; 8; 6]%Z)%nat) by (cbn; lia).
  split; [exact H0|]. split; [exact H2|]. split; [reflexivity|].
  apply (proj1 (Swap_exchanges [4; 8; 6] 0 2 H0 H2)).
Defined.

End SortMore.

(** ** The whole pipeline *)

Section EndToEnd.
Import Pipeline.



End EndToEnd.
